(** * metacubexd: the proxy signals ([src/signals/proxies.ts])

    A shallow embedding of the proxy store of metacubexd: latency
    derivation ([getLatencyFromProxy]), the node projection
    ([setProxiesInfo]), the snapshot refresh ([fetchProxies]), the chain
    resolver ([getNowProxyNodeName]) and the guarded single-node latency
    test ([proxyLatencyTest]), followed by the properties the design
    document states about them. *)

From stdpp Require Import base option list gmap strings relations.
From Stdlib Require Import ZArith Lia Sorted Permutation.

Open Scope string_scope.
Open Scope list_scope.
Open Scope Z_scope.

(** ** JavaScript values

    A [number] that holds a delay or an array index is an integer here.
    Truthiness follows the language: a number is falsy when it is zero, a
    string when it is empty, [undefined] always. *)

Definition truthy_number (n : Z) : bool := negb (n =? 0).
Definition truthy_string (s : string) : bool := negb (String.eqb s "").

(** [Array.prototype.at(-1)]: the last element, [undefined] on an empty
    array. *)
Definition at_last {A} (l : list A) : option A := last l.

(** [Array.prototype.indexOf]: position of the first occurrence, [-1] when
    there is none. *)
Fixpoint indexOf (l : list string) (x : string) : Z :=
  match l with
  | [] => -1
  | y :: l' =>
      if String.eqb y x then 0
      else let i := indexOf l' x in if i <? 0 then -1 else i + 1
  end.

(** ** Plain objects

    The fetched mappings and the two maps of the store are plain
    objects: a read [o[k]] and the test [k in o] also see the properties
    every object inherits from [Object.prototype].  All of them but
    [__proto__] are functions, and an assignment under their name makes
    an own property as under any other name; [inherited_function] gives
    the [name] of each.  [__proto__] is an accessor: [k in o] holds for
    it, a read yields the prototype object, which bears no [name], and
    an assignment replaces the prototype instead of storing an entry.
    Reads and writes under [__proto__] are not modelled: node names and
    pointers are taken to differ from it. *)

Definition inherited_function (k : string) : option string :=
  if String.eqb k "constructor" then Some "Object"
  else if bool_decide
            (k ∈ ["hasOwnProperty"; "isPrototypeOf"; "propertyIsEnumerable";
                  "toLocaleString"; "toString"; "valueOf";
                  "__defineGetter__"; "__defineSetter__";
                  "__lookupGetter__"; "__lookupSetter__"])
  then Some k
  else None.

(** The names [k] for which [k in {}] holds. *)
Definition Object_prototype_names : list string :=
  ["constructor"; "hasOwnProperty"; "isPrototypeOf"; "propertyIsEnumerable";
   "toLocaleString"; "toString"; "valueOf";
   "__defineGetter__"; "__defineSetter__";
   "__lookupGetter__"; "__lookupSetter__"; "__proto__"].

(** What a read [o[k]] of one of the maps of the store finds: an entry
    of the map, an inherited function (given by its [name]), or
    nothing. *)
Inductive Read (A : Type) :=
| Own (a : A)
| Inherited (function_name : string)
| Missing.
Arguments Own {A} a.
Arguments Inherited {A} function_name.
Arguments Missing {A}.

Definition read {A} (o : gmap string A) (k : string) : Read A :=
  match o !! k with
  | Some a => Own a
  | None =>
      match inherited_function k with
      | Some f => Inherited f
      | None => Missing
      end
  end.

(** A plain object used as a record [Record<string, V>]: its own
    properties in enumeration order, which is the order [Object.values]
    walks them in. *)
Module Obj.

Fixpoint get {V} (o : list (string * V)) (k : string) : option V :=
  match o with
  | [] => None
  | (k', v) :: o' => if String.eqb k' k then Some v else get o' k
  end.

(** [k in o]: an own property, or one of the inherited ones *)
Definition has {V} (o : list (string * V)) (k : string) : bool :=
  match get o k with
  | Some _ => true
  | None => bool_decide (k ∈ Object_prototype_names)
  end.

(** [Object.values(o)] *)
Definition values {V} (o : list (string * V)) : list V := o.*2.

(** [Object.keys(o)] *)
Definition keys {V} (o : list (string * V)) : list string := o.*1.

End Obj.

(** [Array.prototype.sort(cmp)]: the sort is stable, and [x] moves behind
    [y] only when [cmp x y] is positive.  Insertion from the right is
    one such sort; [js_sort_unique] below shows that every stable sort
    returns the same array for the comparators used here. *)
Section JsSort.
Context {A : Type} (cmp : A → A → Z).

Fixpoint js_insert (x : A) (l : list A) : list A :=
  match l with
  | [] => [x]
  | y :: l' => if 0 <? cmp x y then y :: js_insert x l' else x :: l
  end.

Fixpoint js_sort (l : list A) : list A :=
  match l with
  | [] => []
  | x :: l' => js_insert x (js_sort l')
  end.

End JsSort.

(** ** Data model ([~/types]) *)

Module Sample.
Record t := mk { time : string; delay : Z }.
End Sample.

(** A value stored under a test URL in [extra]: typed [unknown] in the
    source, which asks [Array.isArray] before reading it. *)
Inductive ExtraValue :=
| ExtraArray (samples : list Sample.t)
| ExtraOther.

(** [Proxy] and [ProxyNode], with the optional [provider] tag of
    [ProxyWithProvider] and [ProxyNodeWithProvider].  A field the source
    reads with [?.] or defaults is optional here. *)
Module Proxy.

Record t := mk {
  name : string;
  type : string;
  udp : bool;
  xudp : bool;
  tfo : bool;
  now : option string;
  history : option (list Sample.t);
  extra : option (gmap string ExtraValue);
  all : option (list string);
  provider : option string;
}.

(** [{ ...proxy, provider: p }] *)
Definition with_provider (proxy : t) (p : string) : t :=
  mk (name proxy) (type proxy) (udp proxy) (xudp proxy) (tfo proxy)
     (now proxy) (history proxy) (extra proxy) (all proxy) (Some p).

End Proxy.

Module ProxyProvider.
Record t := mk {
  name : string;
  vehicleType : string;
  proxies : list Proxy.t;
}.
End ProxyProvider.

(** [ProxyInfo]: the flattened projection of a node.  Its [latency] field
    holds the node's [now] pointer. *)
Module ProxyInfo.
Record t := mk {
  name : string;
  udp : bool;
  tfo : bool;
  latencyTestHistory : option (list Sample.t);
  latency : option string;
  xudp : bool;
  type : string;
  provider : string;
}.
End ProxyInfo.

(** [setProxiesInfo] projects a node into this record. *)
Definition toProxyInfo (proxy : Proxy.t) : ProxyInfo.t :=
  {| ProxyInfo.udp := Proxy.udp proxy;
     ProxyInfo.xudp := Proxy.xudp proxy;
     ProxyInfo.type := Proxy.type proxy;
     ProxyInfo.latency := Proxy.now proxy;
     ProxyInfo.latencyTestHistory := Proxy.history proxy;
     ProxyInfo.name := Proxy.name proxy;
     ProxyInfo.tfo := Proxy.tfo proxy;
     ProxyInfo.provider := default "" (Proxy.provider proxy) |}.

(** ** The store, the transport and the effects of an operation *)

Inductive Exn :=
| RemoteError (msg : string)
| TypeError (msg : string).

(** A request to the engine, as the transport sees it. *)
Inductive RemoteCall :=
| FetchProxyProviders
| FetchProxies
| ProxyLatencyTest (name provider url : string) (timeout : Z).

(** The transport ([~/apis]): what each request settles with.  When both
    requests of a refresh are rejected, [proxiesRejectFirst] tells which
    rejection [Promise.all] sees first. *)
Record Remote := {
  fetchProxyProvidersAPI : Exn + list (string * ProxyProvider.t);
  fetchProxiesAPI : Exn + list (string * Proxy.t);
  proxiesRejectFirst : bool;
  proxyLatencyTestAPI : string → string → string → Z → Exn + Z;
}.

(** The global signals of the module, and the requests issued so far. *)
Record Store := {
  proxies : list Proxy.t;
  proxyProviders : list ProxyProvider.t;
  latencyMap : gmap string Z;
  proxyNodeMap : gmap string ProxyInfo.t;
  proxyLatencyTestingMap : gmap string bool;
  issued : list RemoteCall;
}.

Definition emptyStore : Store :=
  {| proxies := []; proxyProviders := []; latencyMap := ∅;
     proxyNodeMap := ∅; proxyLatencyTestingMap := ∅; issued := [] |}.

(** How a run of an operation ends.  [OutOfFuel] stands for a loop that
    is still running when the fuel given to it is used up. *)
Inductive Outcome (A : Type) :=
| Returned (a : A)
| Thrown (e : Exn)
| OutOfFuel.
Arguments Returned {A} a.
Arguments Thrown {A} e.
Arguments OutOfFuel {A}.

Definition M (A : Type) : Type := Store → Outcome A * Store.

Definition ret {A} (a : A) : M A := λ st, (Returned a, st).
Definition throw {A} (e : Exn) : M A := λ st, (Thrown e, st).
Definition bind {A B} (c : M A) (k : A → M B) : M B :=
  λ st, match c st with
        | (Returned a, st') => k a st'
        | (Thrown e, st') => (Thrown e, st')
        | (OutOfFuel, st') => (OutOfFuel, st')
        end.

#[export] Instance M_ret : MRet M := @ret.
#[export] Instance M_bind : MBind M := λ A B k c, bind c k.

(** [try { body } catch { handler }] *)
Definition try_catch {A} (body : M A) (handler : M A) : M A :=
  λ st, match body st with
        | (Thrown _, st') => handler st'
        | r => r
        end.

(** Run [cleanup] once [body] has settled, with either outcome. *)
Definition when_settled (body : M unit) (cleanup : M unit) : M unit :=
  λ st, match body st with
        | (Returned _, st') => cleanup st'
        | (Thrown e, st') => (Thrown e, (cleanup st').2)
        | (OutOfFuel, st') => (OutOfFuel, st')
        end.

Definition getStore : M Store := λ st, (Returned st, st).

(** Signal setters. *)
Definition setProxies (v : list Proxy.t) : M unit :=
  λ st, (Returned (),
         {| proxies := v; proxyProviders := proxyProviders st;
            latencyMap := latencyMap st; proxyNodeMap := proxyNodeMap st;
            proxyLatencyTestingMap := proxyLatencyTestingMap st;
            issued := issued st |}).
Definition setProxyProviders (v : list ProxyProvider.t) : M unit :=
  λ st, (Returned (),
         {| proxies := proxies st; proxyProviders := v;
            latencyMap := latencyMap st; proxyNodeMap := proxyNodeMap st;
            proxyLatencyTestingMap := proxyLatencyTestingMap st;
            issued := issued st |}).
Definition setLatencyMap (f : gmap string Z → gmap string Z) : M unit :=
  λ st, (Returned (),
         {| proxies := proxies st; proxyProviders := proxyProviders st;
            latencyMap := f (latencyMap st); proxyNodeMap := proxyNodeMap st;
            proxyLatencyTestingMap := proxyLatencyTestingMap st;
            issued := issued st |}).
Definition setProxyNodeMap (v : gmap string ProxyInfo.t) : M unit :=
  λ st, (Returned (),
         {| proxies := proxies st; proxyProviders := proxyProviders st;
            latencyMap := latencyMap st; proxyNodeMap := v;
            proxyLatencyTestingMap := proxyLatencyTestingMap st;
            issued := issued st |}).
Definition setTesting (name : string) (value : bool) : M unit :=
  λ st, (Returned (),
         {| proxies := proxies st; proxyProviders := proxyProviders st;
            latencyMap := latencyMap st; proxyNodeMap := proxyNodeMap st;
            proxyLatencyTestingMap :=
              <[name := value]> (proxyLatencyTestingMap st);
            issued := issued st |}).

(** Sending a request. *)
Definition issue (c : RemoteCall) : M unit :=
  λ st, (Returned (),
         {| proxies := proxies st; proxyProviders := proxyProviders st;
            latencyMap := latencyMap st; proxyNodeMap := proxyNodeMap st;
            proxyLatencyTestingMap := proxyLatencyTestingMap st;
            issued := issued st ++ [c] |}).

(** [await] on a settled promise. *)
Definition await {A} (p : Exn + A) : M A :=
  match p with
  | inl e => throw e
  | inr a => ret a
  end.

(** [Promise.all] of two promises. *)
Definition Promise_all {A B}
    (second_rejects_first : bool) (a : Exn + A) (b : Exn + B)
  : Exn + (A * B) :=
  match a, b with
  | inr x, inr y => inr (x, y)
  | inl e, inr _ => inl e
  | inr _, inl e => inl e
  | inl e1, inl e2 => inl (if second_rejects_first then e2 else e1)
  end.

(** ** Latency derivation *)

Section Config.

(** Signals of [~/signals] that this module only reads:
    [latencyQualityMap().NOT_CONNECTED], [urlForLatencyTest()] and
    [latencyTestTimeoutDuration()]. *)
Variable NOT_CONNECTED : Z.
Variable urlForLatencyTest : string.
Variable latencyTestTimeoutDuration : Z.

Definition getLatencyFromProxy
    (proxy : Proxy.t) (url : string) (fallbackDefault : bool) : Z :=
  let extra := Proxy.extra proxy ≫= (λ e, e !! url) in
  let after_extra :=
    if negb fallbackDefault then NOT_CONNECTED
    else default NOT_CONNECTED
           (Sample.delay <$> (Proxy.history proxy ≫= at_last)) in
  match extra with
  | Some (ExtraArray samples) =>
      match Sample.delay <$> at_last samples with
      | Some delay => if truthy_number delay then delay else after_extra
      | None => after_extra
      end
  | _ => after_extra
  end.

(** ** Node projection *)

Definition setProxiesInfo (proxies : list Proxy.t) : M unit :=
  st ← getStore;
  let newProxyNodeMap :=
    foldl (λ m proxy, <[Proxy.name proxy := toProxyInfo proxy]> m)
          (proxyNodeMap st) proxies in
  let newLatencyMap :=
    foldl (λ m proxy,
             <[Proxy.name proxy :=
                 getLatencyFromProxy proxy urlForLatencyTest true]> m)
          (latencyMap st) proxies in
  setProxyNodeMap newProxyNodeMap;;
  setLatencyMap (λ _, newLatencyMap).

(** ** Snapshot refresh *)

(** [proxy.all?.length] as a condition *)
Definition has_members (proxy : Proxy.t) : bool :=
  match Proxy.all proxy with
  | Some l => truthy_number (Z.of_nat (length l))
  | None => false
  end.

Definition shown_provider (provider : ProxyProvider.t) : bool :=
  negb (String.eqb (ProxyProvider.name provider) "default")
  && negb (String.eqb (ProxyProvider.vehicleType provider) "Compatible").

Definition by_sortIndex (sortIndex : list string) (prev next : Proxy.t) : Z :=
  indexOf sortIndex (Proxy.name prev) - indexOf sortIndex (Proxy.name next).

Definition sortIndex_of (GLOBAL : Proxy.t) : list string :=
  default [] (Proxy.all GLOBAL) ++ ["GLOBAL"].

Definition sortedProxies_of
    (proxies : list (string * Proxy.t)) (GLOBAL : Proxy.t) : list Proxy.t :=
  js_sort (by_sortIndex (sortIndex_of GLOBAL))
          (filter (λ proxy, has_members proxy) (Obj.values proxies)).

Definition sortedProviders_of
    (providers : list (string * ProxyProvider.t)) : list ProxyProvider.t :=
  filter (λ provider, shown_provider provider) (Obj.values providers).

Definition provider_nodes
    (proxies : list (string * Proxy.t)) (provider : ProxyProvider.t)
  : list Proxy.t :=
  (λ proxy, Proxy.with_provider proxy (ProxyProvider.name provider))
    <$> filter (λ proxy, negb (Obj.has proxies (Proxy.name proxy)))
               (ProxyProvider.proxies provider).

Definition allProxies_of
    (proxies : list (string * Proxy.t))
    (sortedProviders : list ProxyProvider.t) : list Proxy.t :=
  Obj.values proxies ++ (sortedProviders ≫= provider_nodes proxies).

Definition fetchProxies (remote : Remote) : M unit :=
  issue FetchProxyProviders;;
  issue FetchProxies;;
  '(providers, proxies) ←
    await (Promise_all (proxiesRejectFirst remote)
             (fetchProxyProvidersAPI remote) (fetchProxiesAPI remote));
  GLOBAL ← match Obj.get proxies "GLOBAL" with
           | Some p => ret p
           | None => throw (TypeError "proxies.GLOBAL is undefined")
           end;
  let sortedProxies := sortedProxies_of proxies GLOBAL in
  let sortedProviders := sortedProviders_of providers in
  let allProxies := allProxies_of proxies sortedProviders in
  setProxies sortedProxies;;
  setProxyProviders sortedProviders;;
  setProxiesInfo allProxies.

(** ** Chain resolver *)

(** The condition of the [while] loop:
    [node.latency && node.latency !== node.name]; the pointer to follow
    when it holds. *)
Definition next_pointer (node : ProxyInfo.t) : option string :=
  match ProxyInfo.latency node with
  | Some now =>
      if truthy_string now && negb (String.eqb now (ProxyInfo.name node))
      then Some now else None
  | None => None
  end.

(** The [while] loop of [getNowProxyNodeName]; one unit of fuel per test
    of its condition on a node of the index, [None] when the fuel runs
    out.  When the pointer names an inherited function, the function
    becomes [node]: it has no [latency], so the next test of the
    condition ends the loop and the [name] of the function is
    returned. *)
Fixpoint getNowProxyNodeName_loop
    (fuel : nat) (index : gmap string ProxyInfo.t) (node : ProxyInfo.t)
  : option string :=
  match fuel with
  | O => None
  | S fuel' =>
      match next_pointer node with
      | Some now =>
          match read index now with
          | Missing => Some (ProxyInfo.name node)
          | Inherited function_name => Some function_name
          | Own nextNode => getNowProxyNodeName_loop fuel' index nextNode
          end
      | None => Some (ProxyInfo.name node)
      end
  end.

(** An inherited function read under [name] is not falsy, so the guard
    of the second line does not return; the loop is not entered and the
    [name] of the function is returned. *)
Definition getNowProxyNodeName
    (fuel : nat) (index : gmap string ProxyInfo.t) (name : string)
  : option string :=
  match read index name with
  | Own node =>
      if truthy_string name then getNowProxyNodeName_loop fuel index node
      else Some name
  | Inherited function_name => Some function_name
  | Missing => Some name
  end.

Definition resolve (fuel : nat) (name : string) : M string :=
  λ st, match getNowProxyNodeName fuel (proxyNodeMap st) name with
        | Some r => (Returned r, st)
        | None => (OutOfFuel, st)
        end.

Definition getLatencyByName (fuel : nat) (name : string) : M (Read Z) :=
  nodeName ← resolve fuel name;
  st ← getStore;
  mret (read (latencyMap st) nodeName).

(** ** Guarded node latency test *)

(** Modelled from the spec: [setWithCallback] of [useStringBooleanMap],
    which lives in [~/helpers] and is not part of this file.  The design
    document (4.1) has it mark the key as in flight, run the operation,
    and clear the mark when the operation settles, whatever the outcome;
    a failure of the operation is left to the caller (4.5). *)
Definition setWithCallback
    (set : string → bool → M unit) (name : string) (callback : M unit)
  : M unit :=
  set name true;;
  when_settled callback (set name false).

(** The source starts the guarded callback and neither awaits nor
    returns it: the promise the caller holds is fulfilled once the
    callback has been started, before the engine answers.  The operation
    is modelled run to completion: its outcome and store are those of
    the moment the callback has settled, not those of the caller's
    promise. *)
Definition proxyLatencyTest
    (remote : Remote) (fuel : nat) (proxyName provider : string) : M unit :=
  nodeName ← resolve fuel proxyName;
  setWithCallback setTesting nodeName
    (try_catch
       (issue (ProxyLatencyTest nodeName provider urlForLatencyTest
                 latencyTestTimeoutDuration);;
        delay ← await (proxyLatencyTestAPI remote nodeName provider
                         urlForLatencyTest latencyTestTimeoutDuration);
        setLatencyMap (λ latencyMap, <[nodeName := delay]> latencyMap))
       (setLatencyMap
          (λ latencyMap, <[nodeName := NOT_CONNECTED]> latencyMap))).

End Config.

(** ** Notions the properties are stated with *)

(** [extra[url]] is a non-empty sample array whose last sample has delay
    [d]. *)
Definition extra_last_delay (proxy : Proxy.t) (url : string) (d : Z) : Prop :=
  ∃ e samples s,
    Proxy.extra proxy = Some e ∧ e !! url = Some (ExtraArray samples)
    ∧ last samples = Some s ∧ Sample.delay s = d.

(** [history] is a non-empty sample array whose last sample has delay
    [d]. *)
Definition history_last_delay (proxy : Proxy.t) (d : Z) : Prop :=
  ∃ h s, Proxy.history proxy = Some h ∧ last h = Some s ∧ Sample.delay s = d.

Definition history_empty (proxy : Proxy.t) : Prop :=
  Proxy.history proxy = None ∨ Proxy.history proxy = Some [].

(** Position of a proxy in the ordering of a refresh. *)
Definition rank (sortIndex : list string) (proxy : Proxy.t) : Z :=
  indexOf sortIndex (Proxy.name proxy).

(** [x] occurs in [l], and [i] is the position of its first
    occurrence. *)
Definition first_at (l : list string) (x : string) (i : nat) : Prop :=
  l !! i = Some x ∧ ∀ j, (j < i)%nat → l !! j ≠ Some x.

(** No node of the index points at a name that every plain object
    inherits. *)
Definition plain_pointers (index : gmap string ProxyInfo.t) : Prop :=
  ∀ k node now,
    index !! k = Some node → next_pointer node = Some now →
    now ∉ Object_prototype_names.

(** The index is keyed by node name, as [setProxiesInfo] builds it. *)
Definition keyed_by_name (index : gmap string ProxyInfo.t) : Prop :=
  ∀ k node, index !! k = Some node → ProxyInfo.name node = k.

(** The fetched mapping holds each proxy under its own name. *)
Definition named_by_key (fetched : list (string * Proxy.t)) : Prop :=
  ∀ k proxy, (k, proxy) ∈ fetched → Proxy.name proxy = k.

(** One turn of the resolver's loop, on nodes and on index keys. *)
Definition now_step (index : gmap string ProxyInfo.t)
    (node node' : ProxyInfo.t) : Prop :=
  ∃ now, next_pointer node = Some now ∧ index !! now = Some node'.

Definition key_step (index : gmap string ProxyInfo.t) (k k' : string) : Prop :=
  ∃ node, index !! k = Some node ∧ next_pointer node = Some k'
          ∧ is_Some (index !! k').

(** No key of the index lies on a cycle of followed pointers.  A pointer
    that is empty, equal to the node's own name or absent from the index
    is not followed, so chains that end in one of these are allowed. *)
Definition acyclic (index : gmap string ProxyInfo.t) : Prop :=
  ∀ k, ¬ tc (key_step index) k k.

(** Every chain of pointers that starts in the index comes to a node
    whose pointer is empty, is the node's own name, or names no node. *)
Definition chains_end (index : gmap string ProxyInfo.t) : Prop :=
  ∀ k node, index !! k = Some node →
    ∃ n last,
      nsteps (now_step index) n node last
      ∧ (next_pointer last = None
         ∨ ∃ now, next_pointer last = Some now ∧ index !! now = None).

(** The maps [setProxiesInfo] publishes, from the previous ones. *)
Definition merged_nodeMap (old : gmap string ProxyInfo.t)
    (nodes : list Proxy.t) : gmap string ProxyInfo.t :=
  foldl (λ m proxy, <[Proxy.name proxy := toProxyInfo proxy]> m) old nodes.

Definition merged_latencyMap (NOT_CONNECTED : Z) (url : string)
    (old : gmap string Z) (nodes : list Proxy.t) : gmap string Z :=
  foldl (λ m proxy,
           <[Proxy.name proxy :=
               getLatencyFromProxy NOT_CONNECTED proxy url true]> m)
        old nodes.

(** The store a refresh publishes when both requests succeed. *)
Definition refreshed (NOT_CONNECTED : Z) (url : string) (st : Store)
    (providers : list (string * ProxyProvider.t))
    (fetched : list (string * Proxy.t)) (GLOBAL : Proxy.t) : Store :=
  let nodes := allProxies_of fetched (sortedProviders_of providers) in
  {| proxies := sortedProxies_of fetched GLOBAL;
     proxyProviders := sortedProviders_of providers;
     latencyMap := merged_latencyMap NOT_CONNECTED url (latencyMap st) nodes;
     proxyNodeMap := merged_nodeMap (proxyNodeMap st) nodes;
     proxyLatencyTestingMap := proxyLatencyTestingMap st;
     issued := issued st ++ [FetchProxyProviders; FetchProxies] |}.

(** ** A small engine to run the operations on *)

Module Ex.

Definition NOT_CONNECTED : Z := 0.
Definition url : string := "https://www.gstatic.com/generate_204".
Definition timeout : Z := 5000.

Definition sample (delay : Z) : Sample.t :=
  Sample.mk "2024-01-01T00:00:00Z" delay.

Definition group (name : string) (members : list string) (now : string)
  : Proxy.t :=
  Proxy.mk name "Selector" true false false (Some now) (Some []) None
    (Some members) None.

Definition leaf (name : string) (delay : Z) : Proxy.t :=
  Proxy.mk name "Shadowsocks" true false false None (Some [sample delay])
    None None None.

(** Nodes with measurements under the test URL. *)
Definition measured : Proxy.t :=
  Proxy.mk "m" "Shadowsocks" true false false None (Some [sample 30])
    (Some {[ url := ExtraArray [sample 0; sample 120] ]}) None None.

Definition zero_measured : Proxy.t :=
  Proxy.mk "z" "Shadowsocks" true false false None (Some [sample 30])
    (Some {[ url := ExtraArray [sample 120; sample 0] ]}) None None.

Definition GLOBAL : Proxy.t := group "GLOBAL" ["A"; "B"] "A".
Definition A : Proxy.t := group "A" ["y"; "X"] "X".
Definition B : Proxy.t := group "B" ["y"] "y".
Definition C : Proxy.t := group "C" ["y"] "y".

Definition fetched : list (string * Proxy.t) :=
  [("GLOBAL", GLOBAL); ("B", B); ("C", C); ("A", A); ("y", leaf "y" 5)].

Definition p0 : ProxyProvider.t :=
  ProxyProvider.mk "default" "Compatible" [leaf "y" 5].
Definition p1 : ProxyProvider.t :=
  ProxyProvider.mk "p1" "HTTP" [leaf "X" 10; leaf "A" 99].
Definition p2 : ProxyProvider.t :=
  ProxyProvider.mk "p2" "File" [leaf "X" 20].

Definition providers : list (string * ProxyProvider.t) :=
  [("default", p0); ("p1", p1); ("p2", p2)].

Definition remote : Remote :=
  {| fetchProxyProvidersAPI := inr providers;
     fetchProxiesAPI := inr fetched;
     proxiesRejectFirst := false;
     proxyLatencyTestAPI := λ _ _ _ _, inr 42 |}.

(** The engine after node [X] and group [C] are gone. *)
Definition fetched_later : list (string * Proxy.t) :=
  [("GLOBAL", GLOBAL); ("B", B); ("A", A); ("y", leaf "y" 5)].

Definition remote_later : Remote :=
  {| fetchProxyProvidersAPI := inr [("default", p0)];
     fetchProxiesAPI := inr fetched_later;
     proxiesRejectFirst := false;
     proxyLatencyTestAPI := λ _ _ _ _, inl (RemoteError "timeout") |}.

(** An engine that does not answer the proxy request. *)
Definition remote_down : Remote :=
  {| fetchProxyProvidersAPI := inr providers;
     fetchProxiesAPI := inl (RemoteError "502");
     proxiesRejectFirst := false;
     proxyLatencyTestAPI := λ _ _ _ _, inl (RemoteError "502") |}.

Definition store1 : Store :=
  (fetchProxies NOT_CONNECTED url remote emptyStore).2.

Definition store2 : Store :=
  (fetchProxies NOT_CONNECTED url remote_later store1).2.

(** The scenario of the design document: [GLOBAL.all = ["A", "B"]] and
    proxies [GLOBAL], [A], [B]. *)
Definition scenario : Remote :=
  {| fetchProxyProvidersAPI := inr [];
     fetchProxiesAPI := inr [("GLOBAL", GLOBAL); ("A", A); ("B", B)];
     proxiesRejectFirst := false;
     proxyLatencyTestAPI := λ _ _ _ _, inr 42 |}.

Definition info (name : string) (now : option string) : ProxyInfo.t :=
  ProxyInfo.mk name true false (Some []) now false "Selector" "".

(** [G] selects [A], whose pointer names no node; [Auto] selects
    itself. *)
Definition index : gmap string ProxyInfo.t :=
  <["G" := info "G" (Some "A")]>
    (<["A" := info "A" (Some "gone")]>
       (<["Auto" := info "Auto" (Some "Auto")]> ∅)).

(** [P] and [Q] select each other. *)
Definition cyclic : gmap string ProxyInfo.t :=
  <["P" := info "P" (Some "Q")]> (<["Q" := info "Q" (Some "P")]> ∅).

End Ex.

(** * The rest of the module *)

(** ** Group classification *)

(** [String.prototype.toLowerCase] on the letters [A] to [Z].  The words
    [isProxyGroup] compares the result with are made of letters that no
    character outside that range lower-cases to, so the comparison is not
    affected by the characters left as they are. *)
Definition lower_ascii (c : Ascii.ascii) : Ascii.ascii :=
  let n := Ascii.nat_of_ascii c in
  if ((65 <=? n) && (n <=? 90))%nat then Ascii.ascii_of_nat (n + 32) else c.

Fixpoint toLowerCase (s : string) : string :=
  match s with
  | EmptyString => EmptyString
  | String c s' => String (lower_ascii c) (toLowerCase s')
  end.

(** [!!s] for an optional string *)
Definition truthy_pointer (s : option string) : bool :=
  match s with
  | Some now => truthy_string now
  | None => false
  end.

(** An inherited function has no [type]: [proxyNode.type.toLowerCase()]
    throws. *)
Definition isProxyGroup
    (index : gmap string ProxyInfo.t) (name : string) : Exn + bool :=
  match read index name with
  | Missing => inr false
  | Inherited _ =>
      inl (TypeError "proxyNode.type is undefined")
  | Own proxyNode =>
      inr (bool_decide (toLowerCase (ProxyInfo.type proxyNode)
                          ∈ ["direct"; "reject"; "loadbalance"])
           || truthy_pointer (ProxyInfo.latency proxyNode))
  end.

(** ** The coordinator: the operations that talk to the engine and then
    refresh *)

(** A connection of the connection tracker ([~/signals]), as far as this
    module reads it. *)
Module Connection.
Record t := mk { id : string; chains : list string }.
End Connection.

(** Everything the module sends to the engine: the requests of
    [RemoteCall], and those of the operations below. *)
Inductive Request :=
| Core (c : RemoteCall)
| SelectProxyInGroup (group name : string)
| CloseSingleConnection (id : string)
| ProxyGroupLatencyTest (group url : string) (timeout : Z)
| UpdateProxyProvider (provider : string)
| ProxyProviderHealthCheck (provider : string).

(** The transport, with the answers to the other requests. *)
Record Engine := {
  core : Remote;
  selectProxyInGroupAPI : string → string → Exn + ();
  proxyGroupLatencyTestAPI : string → string → Z → Exn + ();
  updateProxyProviderAPI : string → Exn + ();
  proxyProviderHealthCheckAPI : string → Exn + ();
}.

(** The store with the remaining signals of the module, and every
    request sent so far, in order. *)
Record Coordinator := {
  store : Store;
  proxyGroupLatencyTestingMap : gmap string bool;
  proxyProviderLatencyTestingMap : gmap string bool;
  updatingMap : gmap string bool;
  isAllProviderUpdating : bool;
  sent : list Request;
}.

Definition emptyCoordinator : Coordinator :=
  {| store := emptyStore; proxyGroupLatencyTestingMap := ∅;
     proxyProviderLatencyTestingMap := ∅; updatingMap := ∅;
     isAllProviderUpdating := false; sent := [] |}.

Definition C (A : Type) : Type := Coordinator → Outcome A * Coordinator.

Definition retC {A} (a : A) : C A := λ w, (Returned a, w).
Definition throwC {A} (e : Exn) : C A := λ w, (Thrown e, w).
Definition bindC {A B} (c : C A) (k : A → C B) : C B :=
  λ w, match c w with
       | (Returned a, w') => k a w'
       | (Thrown e, w') => (Thrown e, w')
       | (OutOfFuel, w') => (OutOfFuel, w')
       end.

#[export] Instance C_ret : MRet C := @retC.
#[export] Instance C_bind : MBind C := λ A B k c, bindC c k.

Definition awaitC {A} (p : Exn + A) : C A :=
  match p with
  | inl e => throwC e
  | inr a => retC a
  end.

(** An operation on the store, run inside the coordinator.  The requests
    it issues are those it has added to [issued]. *)
Definition liftM {A} (m : M A) : C A :=
  λ w, let '(r, st') := m (store w) in
       (r, {| store := st';
              proxyGroupLatencyTestingMap := proxyGroupLatencyTestingMap w;
              proxyProviderLatencyTestingMap :=
                proxyProviderLatencyTestingMap w;
              updatingMap := updatingMap w;
              isAllProviderUpdating := isAllProviderUpdating w;
              sent := sent w
                      ++ (Core <$> drop (length (issued (store w)))
                                        (issued st')) |}).

Definition send (r : Request) : C () :=
  λ w, (Returned (),
        {| store := store w;
           proxyGroupLatencyTestingMap := proxyGroupLatencyTestingMap w;
           proxyProviderLatencyTestingMap := proxyProviderLatencyTestingMap w;
           updatingMap := updatingMap w;
           isAllProviderUpdating := isAllProviderUpdating w;
           sent := sent w ++ [r] |}).

Definition setGroupTesting (name : string) (value : bool) : C () :=
  λ w, (Returned (),
        {| store := store w;
           proxyGroupLatencyTestingMap :=
             <[name := value]> (proxyGroupLatencyTestingMap w);
           proxyProviderLatencyTestingMap := proxyProviderLatencyTestingMap w;
           updatingMap := updatingMap w;
           isAllProviderUpdating := isAllProviderUpdating w;
           sent := sent w |}).

Definition setProviderTesting (name : string) (value : bool) : C () :=
  λ w, (Returned (),
        {| store := store w;
           proxyGroupLatencyTestingMap := proxyGroupLatencyTestingMap w;
           proxyProviderLatencyTestingMap :=
             <[name := value]> (proxyProviderLatencyTestingMap w);
           updatingMap := updatingMap w;
           isAllProviderUpdating := isAllProviderUpdating w;
           sent := sent w |}).

Definition setUpdating (name : string) (value : bool) : C () :=
  λ w, (Returned (),
        {| store := store w;
           proxyGroupLatencyTestingMap := proxyGroupLatencyTestingMap w;
           proxyProviderLatencyTestingMap := proxyProviderLatencyTestingMap w;
           updatingMap := <[name := value]> (updatingMap w);
           isAllProviderUpdating := isAllProviderUpdating w;
           sent := sent w |}).

Definition setIsAllProviderUpdating (value : bool) : C () :=
  λ w, (Returned (),
        {| store := store w;
           proxyGroupLatencyTestingMap := proxyGroupLatencyTestingMap w;
           proxyProviderLatencyTestingMap := proxyProviderLatencyTestingMap w;
           updatingMap := updatingMap w;
           isAllProviderUpdating := value;
           sent := sent w |}).

Definition getCoordinator : C Coordinator := λ w, (Returned w, w).

(** [try { body } catch { /* empty */ }] *)
Definition try_ignore (body : C ()) : C () :=
  λ w, match body w with
       | (Thrown _, w') => (Returned (), w')
       | r => r
       end.

(** [try { body } finally { cleanup }], for a [cleanup] that returns. *)
Definition try_finally (body : C ()) (cleanup : C ()) : C () :=
  λ w, match body w with
       | (Returned _, w') => cleanup w'
       | (Thrown e, w') => (Thrown e, (cleanup w').2)
       | (OutOfFuel, w') => (OutOfFuel, w')
       end.

(** [Array.prototype.forEach] with an effectful body *)
Fixpoint forEach {A} (l : list A) (f : A → C ()) : C () :=
  match l with
  | [] => retC ()
  | x :: l' => bindC (f x) (λ _, forEach l' f)
  end.

(** Modelled from the spec: [setWithCallback] of [useStringBooleanMap]
    ([~/helpers], not part of this file), over the coordinator: mark the
    key, run the operation, clear the mark when it settles with either
    outcome, and leave a failure to the caller (4.1, 4.5). *)
Definition guarded
    (set : string → bool → C ()) (name : string) (callback : C ()) : C () :=
  bindC (set name true) (λ _, try_finally callback (set name false)).

(** A promise that is started and neither awaited nor returned: the
    caller goes on whatever it settles with. *)
Definition not_awaited (started : C ()) : C () :=
  λ w, (Returned (), (started w).2).

Section Coordinator.

Variable NOT_CONNECTED : Z.
Variable urlForLatencyTest : string.
Variable latencyTestTimeoutDuration : Z.

(** [autoCloseConns()], and the connections that
    [restructRawMsgToConnection(latestConnectionMsg()?.connections ?? [], [])]
    returns when the selection has been refreshed; both come from
    [~/signals]. *)
Variable autoCloseConns : bool.
Variable activeConns : list Connection.t.

Definition refreshC (engine : Engine) : C () :=
  liftM (fetchProxies NOT_CONNECTED urlForLatencyTest (core engine)).

Definition selectProxyInGroup
    (engine : Engine) (proxy : Proxy.t) (proxyName : string) : C () :=
  send (SelectProxyInGroup (Proxy.name proxy) proxyName);;
  awaitC (selectProxyInGroupAPI engine (Proxy.name proxy) proxyName);;
  refreshC engine;;
  if autoCloseConns then
    forEach activeConns
      (λ conn,
         if bool_decide (Proxy.name proxy ∈ Connection.chains conn)
         then send (CloseSingleConnection (Connection.id conn))
         else retC ())
  else retC ().

(** Like [proxyLatencyTest], [proxyGroupLatencyTest] starts the guard
    and neither awaits nor returns it: the promise its caller holds is
    fulfilled whatever the guard settles with, and before the engine
    answers.  The operation is modelled run to completion: the state is
    that of the moment the guarded callback has settled, the outcome is
    that of the caller's promise. *)
Definition proxyGroupLatencyTest
    (engine : Engine) (proxyGroupName : string) : C () :=
  not_awaited
    (guarded setGroupTesting proxyGroupName
       (send (ProxyGroupLatencyTest proxyGroupName urlForLatencyTest
                latencyTestTimeoutDuration);;
        awaitC (proxyGroupLatencyTestAPI engine proxyGroupName
                  urlForLatencyTest latencyTestTimeoutDuration);;
        refreshC engine)).

(** [updateProviderByProviderName] and [proxyProviderLatencyTest] return
    what the guard returns. *)

Definition updateProviderByProviderName
    (engine : Engine) (providerName : string) : C () :=
  guarded setUpdating providerName
    (try_ignore
       (send (UpdateProxyProvider providerName);;
        awaitC (updateProxyProviderAPI engine providerName));;
     refreshC engine).

(** [Promise.allSettled] waits for every update and never rejects, so
    the answers to the updates are not read. *)
Definition updateAllProvider (engine : Engine) : C () :=
  setIsAllProviderUpdating true;;
  try_finally
    (w ← getCoordinator;
     forEach (proxyProviders (store w))
       (λ provider,
          send (UpdateProxyProvider (ProxyProvider.name provider)));;
     refreshC engine)
    (setIsAllProviderUpdating false).

Definition proxyProviderLatencyTest
    (engine : Engine) (providerName : string) : C () :=
  guarded setProviderTesting providerName
    (send (ProxyProviderHealthCheck providerName);;
     awaitC (proxyProviderHealthCheckAPI engine providerName);;
     refreshC engine).

End Coordinator.

(** ** Notions the further properties are stated with *)

(** What every operation keeps true of the store: the node index is
    keyed by node name, and every indexed name has a latency. *)
Definition consistent (st : Store) : Prop :=
  keyed_by_name (proxyNodeMap st)
  ∧ dom (proxyNodeMap st) ⊆ dom (latencyMap st).

(** The stores the module can be in: it starts empty, and is changed by
    refreshes and node latency tests, with any answers of the engine. *)
Inductive reachable (NOT_CONNECTED : Z) (url : string) (timeout : Z)
  : Store → Prop :=
| reachable_empty : reachable NOT_CONNECTED url timeout emptyStore
| reachable_refresh remote st :
    reachable NOT_CONNECTED url timeout st →
    reachable NOT_CONNECTED url timeout
      (fetchProxies NOT_CONNECTED url remote st).2
| reachable_test remote fuel proxyName provider st :
    reachable NOT_CONNECTED url timeout st →
    reachable NOT_CONNECTED url timeout
      (proxyLatencyTest NOT_CONNECTED url timeout remote fuel
         proxyName provider st).2.

(** The store after a refresh that throws: the two requests have been
    sent, nothing else has changed. *)
Definition after_failed_refresh (st : Store) : Store :=
  {| proxies := proxies st; proxyProviders := proxyProviders st;
     latencyMap := latencyMap st; proxyNodeMap := proxyNodeMap st;
     proxyLatencyTestingMap := proxyLatencyTestingMap st;
     issued := issued st ++ [FetchProxyProviders; FetchProxies] |}.

(** The pieces of the store that a refresh publishes. *)
Definition published (st : Store)
  : list Proxy.t * list ProxyProvider.t
    * gmap string ProxyInfo.t * gmap string Z :=
  (proxies st, proxyProviders st, proxyNodeMap st, latencyMap st).

(** The coordinator [w] once its store has become [st] and the requests
    [reqs] have been sent. *)
Definition moved (w : Coordinator) (st : Store) (reqs : list Request)
  : Coordinator :=
  {| store := st;
     proxyGroupLatencyTestingMap := proxyGroupLatencyTestingMap w;
     proxyProviderLatencyTestingMap := proxyProviderLatencyTestingMap w;
     updatingMap := updatingMap w;
     isAllProviderUpdating := isAllProviderUpdating w;
     sent := sent w ++ reqs |}.

(** What a node latency test writes for an answer of the engine. *)
Definition measured_or (NOT_CONNECTED : Z) (answer : Exn + Z) : Z :=
  match answer with
  | inr delay => delay
  | inl _ => NOT_CONNECTED
  end.

(** The close requests of [selectProxyInGroup]: one for each connection
    whose chain goes through the group, in the order of the list. *)
Definition closes_for (group : string) (conns : list Connection.t)
  : list Request :=
  (λ conn, CloseSingleConnection (Connection.id conn))
    <$> filter (λ conn, group ∈ Connection.chains conn) conns.

(** ** More of the small engine *)

Module Ex2.

Definition engine : Engine :=
  {| core := Ex.remote;
     selectProxyInGroupAPI := λ _ _, inr ();
     proxyGroupLatencyTestAPI := λ _ _ _, inr ();
     updateProxyProviderAPI := λ _, inl (RemoteError "update failed");
     proxyProviderHealthCheckAPI := λ _, inr () |}.

(** An engine that rejects every request but the fetches. *)
Definition engine_rejecting : Engine :=
  {| core := Ex.remote;
     selectProxyInGroupAPI := λ _ _, inl (RemoteError "400");
     proxyGroupLatencyTestAPI := λ _ _ _, inl (RemoteError "504");
     updateProxyProviderAPI := λ _, inl (RemoteError "update failed");
     proxyProviderHealthCheckAPI := λ _, inl (RemoteError "504") |}.

(** An engine whose proxies have no [GLOBAL]. *)
Definition remote_no_GLOBAL : Remote :=
  {| fetchProxyProvidersAPI := inr Ex.providers;
     fetchProxiesAPI := inr [("A", Ex.A); ("y", Ex.leaf "y" 5)];
     proxiesRejectFirst := false;
     proxyLatencyTestAPI := λ _ _ _ _, inr 42 |}.

(** An engine that accepts a selection and then fails to answer the
    proxy request. *)
Definition engine_down : Engine :=
  {| core := Ex.remote_down;
     selectProxyInGroupAPI := λ _ _, inr ();
     proxyGroupLatencyTestAPI := λ _ _ _, inr ();
     updateProxyProviderAPI := λ _, inr ();
     proxyProviderHealthCheckAPI := λ _, inr () |}.

(** An engine whose default provider supplies a node [h] that is no
    top-level proxy. *)
Definition remote_hidden : Remote :=
  {| fetchProxyProvidersAPI :=
       inr [("default",
             ProxyProvider.mk "default" "Compatible" [Ex.leaf "h" 7]);
            ("p1", Ex.p1)];
     fetchProxiesAPI := inr Ex.fetched;
     proxiesRejectFirst := false;
     proxyLatencyTestAPI := λ _ _ _ _, inr 42 |}.

(** The pointer of [G] names no node, and is the name of an inherited
    function. *)
Definition inherited_pointer : gmap string ProxyInfo.t :=
  <["G" := Ex.info "G" (Some "toString")]> ∅.

(** A group named [Object] that selects [Z]. *)
Definition named_Object : gmap string ProxyInfo.t :=
  <["Object" := Ex.info "Object" (Some "Z")]>
    (<["Z" := Ex.info "Z" None]> ∅).

(** Two providers that both supply a node named [toString], which is no
    top-level proxy. *)
Definition q1 : ProxyProvider.t :=
  ProxyProvider.mk "q1" "HTTP" [Ex.leaf "toString" 10].
Definition q2 : ProxyProvider.t :=
  ProxyProvider.mk "q2" "File" [Ex.leaf "toString" 20].

Definition remote_toString : Remote :=
  {| fetchProxyProvidersAPI := inr [("q1", q1); ("q2", q2)];
     fetchProxiesAPI := inr Ex.fetched;
     proxiesRejectFirst := false;
     proxyLatencyTestAPI := λ _ _ _ _, inr 42 |}.

Definition conns : list Connection.t :=
  [Connection.mk "c1" ["X"; "A"; "GLOBAL"];
   Connection.mk "c2" ["y"; "B"];
   Connection.mk "c3" ["X"; "A"]].

Definition coordinator1 : Coordinator :=
  {| store := Ex.store1; proxyGroupLatencyTestingMap := ∅;
     proxyProviderLatencyTestingMap := ∅; updatingMap := ∅;
     isAllProviderUpdating := false; sent := [] |}.

(** A node index with a direct node, a group and a plain node. *)
Definition classified : gmap string ProxyInfo.t :=
  <["DIRECT" := ProxyInfo.mk "DIRECT" true false (Some []) None false
                  "Direct" ""]>
    (<["G" := Ex.info "G" (Some "n")]>
       (<["n" := ProxyInfo.mk "n" true false (Some []) None false
                   "Shadowsocks" ""]> ∅)).

End Ex2.

(** * Properties *)

(** ** Plain objects *)

Lemma inherited_function_names k f :
  inherited_function k = Some f → k ∈ Object_prototype_names.
Proof.
  unfold inherited_function, Object_prototype_names.
  destruct (String.eqb_spec k "constructor") as [->|_]; [by left|].
  case_bool_decide as Hin; [|done]. intros _. right.
  repeat (apply elem_of_cons in Hin as [->|Hin];
          [repeat (first [by left|right])|]).
  by apply elem_of_nil in Hin.
Qed.

Lemma inherited_function_plain k :
  k ∉ Object_prototype_names → inherited_function k = None.
Proof.
  intros Hk. destruct (inherited_function k) as [f|] eqn:Hf; [|done].
  by apply inherited_function_names in Hf.
Qed.

Lemma read_Own {A} (o : gmap string A) k a :
  read o k = Own a ↔ o !! k = Some a.
Proof.
  unfold read. destruct (o !! k) as [a'|].
  - split; intros ?; by simplify_eq.
  - destruct (inherited_function k); split; intros ?; by simplify_eq.
Qed.

Lemma read_plain {A} (o : gmap string A) k :
  o !! k = None → k ∉ Object_prototype_names → read o k = Missing.
Proof.
  intros Ho Hk. unfold read. by rewrite Ho, inherited_function_plain.
Qed.

(** ** Arrays *)

Lemma indexOf_ge x l : -1 ≤ indexOf l x.
Proof.
  induction l as [|y l IH]; simpl; [lia|].
  destruct (String.eqb y x); [lia|].
  destruct (indexOf l x <? 0) eqn:E; lia.
Qed.

Lemma indexOf_absent x l : x ∉ l → indexOf l x = -1.
Proof.
  induction l as [|y l IH]; simpl; [done|].
  rewrite not_elem_of_cons. intros [Hxy Hl].
  destruct (String.eqb_spec y x) as [->|_]; [done|].
  rewrite IH by done. reflexivity.
Qed.

Lemma indexOf_present x l : x ∈ l → 0 ≤ indexOf l x.
Proof.
  induction l as [|y l IH]; simpl.
  - by intros ?%elem_of_nil.
  - intros Hin. destruct (String.eqb_spec y x) as [->|Hne]; [lia|].
    apply elem_of_cons in Hin as [->|Hin]; [done|].
    specialize (IH Hin). destruct (indexOf l x <? 0) eqn:E; lia.
Qed.

Lemma indexOf_neg_iff x l : indexOf l x = -1 ↔ x ∉ l.
Proof.
  split; [|apply indexOf_absent].
  intros H Hin. apply indexOf_present in Hin. lia.
Qed.

(** A non-negative result is the position of the first occurrence. *)
Lemma indexOf_first x l i :
  indexOf l x = Z.of_nat i →
  l !! i = Some x ∧ ∀ j, (j < i)%nat → l !! j ≠ Some x.
Proof.
  revert i. induction l as [|y l IH]; simpl; intros i; [lia|].
  destruct (String.eqb_spec y x) as [->|Hne].
  - intros Hi. assert (i = O) as -> by lia. split; [done|]. lia.
  - pose proof (indexOf_ge x l).
    destruct (indexOf l x <? 0) eqn:E; [lia|].
    apply Z.ltb_ge in E. intros Hi.
    destruct i as [|i]; [lia|].
    destruct (IH i) as [Hl Hfirst]; [lia|].
    split; [done|]. intros [|j] Hj; simpl; [congruence|].
    apply Hfirst. lia.
Qed.

(** ** [Array.prototype.sort] with a comparator that subtracts keys *)

Section SortByKey.
Context {A : Type} (key : A → Z).

Local Abbreviation cmp := (λ x y : A, key x - key y).
Local Abbreviation le_key := (λ x y : A, key x ≤ key y).

Lemma js_insert_perm x l : js_insert cmp x l ≡ₚ x :: l.
Proof.
  induction l as [|y l IH]; simpl; [done|].
  destruct (0 <? cmp x y); [|done].
  rewrite IH. apply Permutation_swap.
Qed.

Lemma js_sort_perm l : js_sort cmp l ≡ₚ l.
Proof.
  induction l as [|x l IH]; simpl; [done|].
  by rewrite js_insert_perm, IH.
Qed.

Lemma js_insert_sorted x l :
  StronglySorted le_key l → StronglySorted le_key (js_insert cmp x l).
Proof.
  induction 1 as [|y l Hl IH Hy]; simpl.
  - repeat constructor.
  - simpl in *. destruct (0 <? key x - key y) eqn:E.
    + apply Z.ltb_lt in E. constructor; [done|].
      rewrite js_insert_perm. constructor; [lia|done].
    + apply Z.ltb_ge in E. constructor; [by constructor|].
      constructor; [lia|].
      eapply Forall_impl; [exact Hy|]. simpl. intros; lia.
Qed.

Lemma js_sort_sorted l : StronglySorted le_key (js_sort cmp l).
Proof.
  induction l as [|x l IH]; simpl; [constructor|].
  by apply js_insert_sorted.
Qed.

(** Elements with the same key keep the order they came in. *)
Lemma js_insert_stable k x l :
  filter (λ a, key a = k) (js_insert cmp x l)
  = filter (λ a, key a = k) (x :: l).
Proof.
  induction l as [|y l IH]; simpl; [done|].
  destruct (0 <? key x - key y) eqn:E; [|done].
  apply Z.ltb_lt in E.
  rewrite (filter_cons _ y), IH, !filter_cons.
  repeat case_decide; try done; lia.
Qed.

Lemma js_sort_stable k l :
  filter (λ a, key a = k) (js_sort cmp l) = filter (λ a, key a = k) l.
Proof.
  induction l as [|x l IH]; simpl; [done|].
  by rewrite js_insert_stable, !filter_cons, IH.
Qed.

(** Two arrays in key order with the same elements under each key, in
    the same order, are the same array. *)
Lemma sorted_stable_unique l1 l2 :
  StronglySorted le_key l1 → StronglySorted le_key l2 →
  (∀ k, filter (λ a, key a = k) l1 = filter (λ a, key a = k) l2) →
  l1 = l2.
Proof.
  intros H1. revert l2.
  induction H1 as [|x l1 Hl1 IH Hx]; intros l2 H2 Hf.
  - destruct l2 as [|y l2]; [done|].
    specialize (Hf (key y)). rewrite filter_cons_True in Hf by done.
    discriminate.
  - destruct H2 as [|y l2 Hl2 Hy].
    { specialize (Hf (key x)). rewrite filter_cons_True in Hf by done.
      discriminate. }
    assert (key x = key y) as Hk.
    { assert (x ∈ y :: l2) as Hxin.
      { eapply (proj1 (list_elem_of_filter (λ a, key a = key x) _ _)).
        rewrite <- Hf, filter_cons_True by done. left. }
      assert (y ∈ x :: l1) as Hyin.
      { eapply (proj1 (list_elem_of_filter (λ a, key a = key y) _ _)).
        rewrite Hf, filter_cons_True by done. left. }
      apply elem_of_cons in Hxin as [->|Hxin]; [done|].
      apply elem_of_cons in Hyin as [->|Hyin]; [done|].
      rewrite Forall_forall in Hx, Hy.
      specialize (Hx _ Hyin). specialize (Hy _ Hxin). simpl in *. lia. }
    assert (x = y) as ->.
    { specialize (Hf (key x)).
      rewrite !filter_cons_True in Hf by done. congruence. }
    f_equal. apply IH; [done|]. intros k. specialize (Hf k).
    rewrite !filter_cons in Hf. case_decide; congruence.
Qed.

(** Whatever stable sorting algorithm the engine runs, it returns what
    [js_sort] returns. *)
Lemma js_sort_unique l l' :
  StronglySorted le_key l' →
  (∀ k, filter (λ a, key a = k) l' = filter (λ a, key a = k) l) →
  l' = js_sort cmp l.
Proof.
  intros Hs Hf. apply sorted_stable_unique; [done|apply js_sort_sorted|].
  intros k. by rewrite Hf, js_sort_stable.
Qed.

(** In an array in key order, a smaller key stands at a smaller
    position. *)
Lemma sorted_lookup_lt l i j x y :
  StronglySorted le_key l →
  l !! i = Some x → l !! j = Some y → key x < key y → (i < j)%nat.
Proof.
  intros Hs. revert i j.
  induction Hs as [|z l Hl IH Hz]; intros i j Hi Hj Hlt; [done|].
  destruct i as [|i], j as [|j]; simpl in *; simplify_eq; try lia.
  - rewrite Forall_forall in Hz.
    assert (x ∈ l) as Hx by (eapply list_elem_of_lookup_2; done).
    specialize (Hz _ Hx). simpl in Hz. lia.
  - specialize (IH i j Hi Hj Hlt). lia.
Qed.

End SortByKey.

(** ** Writing a sequence of nodes into a map, [forEach] style *)

Section FoldInsert.
Context {A V : Type} (key : A → string) (val : A → V).

Local Abbreviation write_all :=
  (foldl (λ (m : gmap string V) a, <[key a := val a]> m)).

Lemma write_all_other m l k :
  (∀ a, a ∈ l → key a ≠ k) → write_all m l !! k = m !! k.
Proof.
  revert m. induction l as [|x l IH]; intros m Hne; simpl; [done|].
  rewrite IH by (intros a Ha; apply Hne; by right).
  apply lookup_insert_ne, Hne. left.
Qed.

(** The last write under a key is the one that stays. *)
Lemma write_all_last m l1 x l2 :
  (∀ a, a ∈ l2 → key a ≠ key x) →
  write_all m (l1 ++ x :: l2) !! key x = Some (val x).
Proof.
  intros Hne. rewrite foldl_app. simpl.
  rewrite write_all_other by done. apply lookup_insert_eq.
Qed.


Lemma write_all_keyed (name_of : V → string) m l :
  (∀ a, name_of (val a) = key a) →
  (∀ k v, m !! k = Some v → name_of v = k) →
  ∀ k v, write_all m l !! k = Some v → name_of v = k.
Proof.
  intros Hval. revert m. induction l as [|x l IH]; intros m Hm; simpl.
  - done.
  - apply IH. intros k v. rewrite lookup_insert_Some.
    intros [[<- <-]|[_ Hk]]; [apply Hval|by apply Hm].
Qed.

End FoldInsert.

Section Properties.
Variable NOT_CONNECTED : Z.
Variable urlForLatencyTest : string.
Variable latencyTestTimeoutDuration : Z.

Local Abbreviation getLatency := (getLatencyFromProxy NOT_CONNECTED).
Local Abbreviation refresh := (fetchProxies NOT_CONNECTED urlForLatencyTest).
Local Abbreviation latencyTest :=
  (proxyLatencyTest NOT_CONNECTED urlForLatencyTest
     latencyTestTimeoutDuration).

(** ** Latency derivation *)

Lemma getLatencyFromProxy_measured proxy url fallback d :
  extra_last_delay proxy url d → d ≠ 0 → getLatency proxy url fallback = d.
Proof.
  intros (e & samples & s & He & Hurl & Hlast & Hd) Hnz.
  unfold getLatencyFromProxy, at_last. rewrite He. simpl. rewrite Hurl, Hlast.
  simpl. rewrite Hd. unfold truthy_number.
  destruct (Z.eqb_spec d 0); [done|reflexivity].
Qed.

Lemma getLatencyFromProxy_unmeasured proxy url fallback :
  (∀ d, extra_last_delay proxy url d → d = 0) →
  getLatency proxy url fallback
  = if fallback
    then default NOT_CONNECTED
           (Sample.delay <$> (Proxy.history proxy ≫= last))
    else NOT_CONNECTED.
Proof.
  intros Hno. unfold getLatencyFromProxy, at_last.
  destruct (Proxy.extra proxy) as [e|] eqn:He; simpl;
    [|by destruct fallback].
  destruct (e !! url) as [[samples|]|] eqn:Hurl; [|by destruct fallback..].
  destruct (last samples) as [s|] eqn:Hlast; simpl; [|by destruct fallback].
  rewrite (Hno (Sample.delay s)) by (by exists e, samples, s).
  by destruct fallback.
Qed.

(** C1. Latency derivation is a case analysis.  When [extra[url]] is a
    non-empty sample array whose last delay is truthy (a non-zero
    number, a positive one in particular), that delay is returned,
    whatever [history] holds.  Otherwise (no [extra], nothing under
    [url], not an array, an empty array, or a last delay of zero) the
    result is [NOT_CONNECTED] when [fallbackDefault] is false, and else
    the delay of the last sample of [history], or [NOT_CONNECTED] when
    [history] is empty or absent. *)
Theorem getLatencyFromProxy_cases proxy url fallbackDefault :
  (∀ d, extra_last_delay proxy url d → d ≠ 0 →
        getLatency proxy url fallbackDefault = d)
  ∧ (∀ d, extra_last_delay proxy url d → 0 < d →
          getLatency proxy url fallbackDefault = d)
  ∧ ((∀ d, extra_last_delay proxy url d → d = 0) →
       (fallbackDefault = false →
          getLatency proxy url fallbackDefault = NOT_CONNECTED)
     ∧ (fallbackDefault = true →
          ∀ d, history_last_delay proxy d →
               getLatency proxy url fallbackDefault = d)
     ∧ (fallbackDefault = true → history_empty proxy →
          getLatency proxy url fallbackDefault = NOT_CONNECTED)).
Proof.
  split; [|split].
  - intros d. apply getLatencyFromProxy_measured.
  - intros d Hd Hpos. apply getLatencyFromProxy_measured; [done|lia].
  - intros Hno. rewrite getLatencyFromProxy_unmeasured by done.
    split; [|split].
    + by intros ->.
    + intros -> d (h & s & Hh & Hlast & Hd). rewrite Hh. simpl.
      by rewrite Hlast.
    + intros -> [Hh|Hh]; by rewrite Hh.
Qed.

(** ** The refresh, step by step *)

Lemma fetchProxies_success remote st providers fetched GLOBAL :
  fetchProxyProvidersAPI remote = inr providers →
  fetchProxiesAPI remote = inr fetched →
  Obj.get fetched "GLOBAL" = Some GLOBAL →
  refresh remote st
  = (Returned (),
     refreshed NOT_CONNECTED urlForLatencyTest st providers fetched GLOBAL).
Proof.
  intros Hp Hf Hg. unfold fetchProxies, mbind, M_bind, bind. simpl.
  rewrite Hp, Hf. simpl. rewrite Hg. unfold refreshed. simpl.
  by rewrite <- app_assoc.
Qed.

Lemma fetchProxies_no_GLOBAL remote st providers fetched :
  fetchProxyProvidersAPI remote = inr providers →
  fetchProxiesAPI remote = inr fetched →
  Obj.get fetched "GLOBAL" = None →
  ∃ msg st', refresh remote st = (Thrown (TypeError msg), st').
Proof.
  intros Hp Hf Hg. unfold fetchProxies, mbind, M_bind, bind. simpl.
  rewrite Hp, Hf. simpl. rewrite Hg. simpl. eauto.
Qed.

Lemma fetchProxies_rejected remote st e :
  Promise_all (proxiesRejectFirst remote)
    (fetchProxyProvidersAPI remote) (fetchProxiesAPI remote) = inl e →
  refresh remote st
  = (Thrown e,
     {| proxies := proxies st; proxyProviders := proxyProviders st;
        latencyMap := latencyMap st; proxyNodeMap := proxyNodeMap st;
        proxyLatencyTestingMap := proxyLatencyTestingMap st;
        issued := issued st ++ [FetchProxyProviders; FetchProxies] |}).
Proof.
  intros He. unfold fetchProxies, mbind, M_bind, bind. simpl.
  rewrite He. simpl. by rewrite <- app_assoc.
Qed.

(** A refresh that returns has received both answers and found
    [GLOBAL]. *)
Lemma fetchProxies_returned remote st st' :
  refresh remote st = (Returned (), st') →
  ∃ providers fetched GLOBAL,
    fetchProxyProvidersAPI remote = inr providers
    ∧ fetchProxiesAPI remote = inr fetched
    ∧ Obj.get fetched "GLOBAL" = Some GLOBAL
    ∧ st' = refreshed NOT_CONNECTED urlForLatencyTest st
              providers fetched GLOBAL.
Proof.
  intros Hr.
  destruct (fetchProxyProvidersAPI remote) as [e1|providers] eqn:Hp.
  { destruct (fetchProxiesAPI remote) as [e2|fetched] eqn:Hf;
      erewrite fetchProxies_rejected in Hr;
      try (rewrite Hp, Hf; reflexivity); discriminate. }
  destruct (fetchProxiesAPI remote) as [e2|fetched] eqn:Hf.
  { erewrite fetchProxies_rejected in Hr;
      try (rewrite Hp, Hf; reflexivity); discriminate. }
  destruct (Obj.get fetched "GLOBAL") as [GLOBAL|] eqn:Hg.
  - rewrite (fetchProxies_success _ _ _ _ _ Hp Hf Hg) in Hr.
    exists providers, fetched, GLOBAL. by simplify_eq.
  - destruct (fetchProxies_no_GLOBAL _ st _ _ Hp Hf Hg) as (msg & st'' & Hth).
    rewrite Hth in Hr. discriminate.
Qed.

(** ** Chain resolver *)

Lemma truthy_string_true s : truthy_string s = true ↔ s ≠ "".
Proof.
  unfold truthy_string. rewrite negb_true_iff. apply String.eqb_neq.
Qed.

Lemma next_pointer_Some node now :
  next_pointer node = Some now ↔
  ProxyInfo.latency node = Some now ∧ now ≠ "" ∧ now ≠ ProxyInfo.name node.
Proof.
  unfold next_pointer.
  destruct (ProxyInfo.latency node) as [s|].
  - destruct (truthy_string s) eqn:Hs.
    + apply truthy_string_true in Hs.
      destruct (String.eqb_spec s (ProxyInfo.name node)) as [Heq|Hne]; simpl.
      * split; [done|]. intros (? & _ & ?). congruence.
      * split; [intros ?; by simplify_eq|]. intros (? & _). congruence.
    + simpl. split; [done|]. intros (? & Hne & _). simplify_eq.
      apply truthy_string_true in Hne. congruence.
  - split; [done|]. by intros [? _].
Qed.

Lemma next_pointer_self node :
  ProxyInfo.latency node = Some (ProxyInfo.name node) →
  next_pointer node = None.
Proof.
  intros H. destruct (next_pointer node) as [now|] eqn:E; [|done].
  apply next_pointer_Some in E as (Hl & _ & Hne). congruence.
Qed.

(** More fuel does not change the answer of a loop that has ended. *)
Lemma getNowProxyNodeName_loop_mono index fuel fuel' node r :
  (fuel ≤ fuel')%nat →
  getNowProxyNodeName_loop fuel index node = Some r →
  getNowProxyNodeName_loop fuel' index node = Some r.
Proof.
  revert fuel' node. induction fuel as [|fuel IH]; intros fuel' node Hle;
    [done|].
  destruct fuel' as [|fuel']; [lia|]. simpl.
  destruct (next_pointer node) as [now|]; [|done].
  destruct (read index now) as [nextNode| |]; [|done..].
  apply IH. lia.
Qed.

(** A walk of [n] turns that ends on a node whose pointer is not
    followed, or names no node, returns. *)
Lemma getNowProxyNodeName_loop_walk index n first last :
  nsteps (now_step index) n first last →
  (next_pointer last = None
   ∨ ∃ now, next_pointer last = Some now ∧ index !! now = None) →
  ∃ r, ∀ fuel, (n < fuel)%nat →
    getNowProxyNodeName_loop fuel index first = Some r.
Proof.
  induction 1 as [node|n node node' last (now & Hnp & Hnext) _ IH];
    intros Hend.
  - destruct Hend as [Hnone|(now & Hnp & Hmiss)].
    + exists (ProxyInfo.name node). intros [|fuel] ?; [lia|]. simpl.
      by rewrite Hnone.
    + exists (default (ProxyInfo.name node) (inherited_function now)).
      intros [|fuel] ?; [lia|]. simpl. unfold read.
      rewrite Hnp, Hmiss. by destruct (inherited_function now).
  - destruct (IH Hend) as [r Hr]. exists r.
    intros [|fuel] ?; [lia|]. simpl.
    rewrite Hnp, (proj2 (read_Own index now node') Hnext). apply Hr. lia.
Qed.

(** When the pointer at the end of the walk is none of the inherited
    property names, it is the name of the last node that is returned. *)
Lemma getNowProxyNodeName_loop_walk_plain index n first last :
  nsteps (now_step index) n first last →
  (next_pointer last = None
   ∨ ∃ now, next_pointer last = Some now ∧ index !! now = None
            ∧ now ∉ Object_prototype_names) →
  ∀ fuel, (n < fuel)%nat →
    getNowProxyNodeName_loop fuel index first = Some (ProxyInfo.name last).
Proof.
  induction 1 as [node|n node node' last (now & Hnp & Hnext) _ IH];
    intros Hend fuel Hfuel; (destruct fuel as [|fuel]; [lia|]); simpl.
  - destruct Hend as [->|(now & -> & Hmiss & Hplain)]; [done|].
    by rewrite read_plain.
  - rewrite Hnp, (proj2 (read_Own index now node') Hnext).
    apply IH; [done|lia].
Qed.

(** The claim of C2 on the names that are none of the inherited property
    names: such a name that the index does not hold is returned
    unchanged; a node held under its name whose pointer is that name is
    returned at the first test of the loop condition; a walk that comes
    to a node whose pointer is such a name and names no node of the
    index returns the name of that last node. *)
Lemma getNowProxyNodeName_plain_names index :
  (∀ fuel name,
     index !! name = None → name ∉ Object_prototype_names →
     getNowProxyNodeName fuel index name = Some name)
  ∧ (∀ fuel name node,
       index !! name = Some node →
       ProxyInfo.name node = name →
       ProxyInfo.latency node = Some name →
       (1 ≤ fuel)%nat →
       getNowProxyNodeName fuel index name = Some name)
  ∧ (∀ fuel name first n last now,
       name ≠ "" →
       index !! name = Some first →
       nsteps (now_step index) n first last →
       next_pointer last = Some now →
       index !! now = None →
       now ∉ Object_prototype_names →
       (n < fuel)%nat →
       getNowProxyNodeName fuel index name = Some (ProxyInfo.name last)).
Proof.
  split; [|split].
  - intros fuel name Hnone Hplain. unfold getNowProxyNodeName.
    by rewrite read_plain.
  - intros fuel name node Hnode Hname Hself Hfuel.
    unfold getNowProxyNodeName.
    rewrite (proj2 (read_Own index name node) Hnode).
    destruct (truthy_string name); [|done].
    destruct fuel as [|fuel]; [lia|]. simpl.
    rewrite next_pointer_self by congruence. congruence.
  - intros fuel name first n last now Hne Hfirst Hwalk Hnp Hnone Hplain Hfuel.
    unfold getNowProxyNodeName.
    rewrite (proj2 (read_Own index name first) Hfirst).
    rewrite (proj2 (truthy_string_true name)) by done.
    eapply getNowProxyNodeName_loop_walk_plain; eauto 10.
Qed.

(** C2. The code at the failing inputs.  The index of [Ex.index] holds
    no node named [constructor], and the resolver returns ["Object"] for
    that name, not the name unchanged: the read of the second line finds
    the inherited function, which the guard of the third line does not
    take for a miss.  In [Ex2.inherited_pointer] the pointer of [G]
    names no node, and the resolver returns ["toString"], not ["G"]: the
    read in the loop finds the inherited function and the loop goes on
    with it. *)
Theorem getNowProxyNodeName_inherited_names :
  Ex.index !! "constructor" = None
  ∧ getNowProxyNodeName 1 Ex.index "constructor" = Some "Object"
  ∧ Ex2.inherited_pointer !! "G" = Some (Ex.info "G" (Some "toString"))
  ∧ Ex2.inherited_pointer !! "toString" = None
  ∧ getNowProxyNodeName 1 Ex2.inherited_pointer "G" = Some "toString".
Proof. repeat split. Qed.

(** The loop ends within as many tests as there are keys it has not yet
    been at: [V] holds the keys behind the current one. *)
Lemma getNowProxyNodeName_loop_terminates index :
  acyclic index →
  ∀ n (V : gset string) k node,
    index !! k = Some node →
    (∀ v, v ∈ V → tc (key_step index) v k) →
    (size (dom index ∖ V) ≤ n)%nat →
    ∃ r, ∀ fuel, (n ≤ fuel)%nat →
      getNowProxyNodeName_loop fuel index node = Some r.
Proof.
  intros Hac. induction n as [|n IH]; intros V k node Hk Hreach Hsize.
  - exfalso. assert (k ∈ dom index ∖ V) as Hin.
    { apply elem_of_difference. split; [by apply elem_of_dom|].
      intros HV. by apply (Hac k), Hreach. }
    assert (dom index ∖ V ≡ ∅) as Hemp by (apply size_empty_iff; lia).
    rewrite elem_of_equiv_empty in Hemp. by apply (Hemp k).
  - destruct (next_pointer node) as [now|] eqn:Hnp; cycle 1.
    { exists (ProxyInfo.name node). intros [|fuel] ?; [lia|]. simpl.
      by rewrite Hnp. }
    destruct (read index now) as [nextNode|f|] eqn:Hread; cycle 1.
    { exists f. intros [|fuel] ?; [lia|]. simpl. by rewrite Hnp, Hread. }
    { exists (ProxyInfo.name node). intros [|fuel] ?; [lia|]. simpl.
      by rewrite Hnp, Hread. }
    pose proof (proj1 (read_Own index now nextNode) Hread) as Hnext.
    assert (key_step index k now) as Hstep by (exists node; eauto).
    assert (k ∉ V) as HkV by (intros HV; by apply (Hac k), Hreach).
    destruct (IH (V ∪ {[k]}) now nextNode) as [r Hr]; [done|..].
    + intros v [Hv|Hv%elem_of_singleton]%elem_of_union.
      * eapply tc_r; eauto.
      * subst v. by apply tc_once.
    + assert (dom index ∖ (V ∪ {[k]}) ⊂ dom index ∖ V) as Hsub.
      { split.
        - intros x. rewrite !elem_of_difference, elem_of_union.
          intros [Hx Hnot]. split; [done|]. intros HxV. apply Hnot. by left.
        - intros Hsup. assert (k ∈ dom index ∖ (V ∪ {[k]})) as Hin.
          { apply Hsup, elem_of_difference. split; [|done].
            by apply elem_of_dom. }
          apply elem_of_difference in Hin as [_ Hnot]. apply Hnot.
          apply elem_of_union. right. by apply elem_of_singleton. }
      apply subset_size in Hsub. lia.
    + exists r. intros [|fuel] ?; [lia|]. simpl. rewrite Hnp, Hread.
      apply Hr. lia.
Qed.

(** C3. When no key of the index lies on a cycle of followed pointers
    (chains may end in an empty pointer, a pointer to the node itself or
    a name absent from the index), the resolver returns: the loop
    stands on no more nodes than the index has entries, and more fuel
    gives the same name. *)
Theorem getNowProxyNodeName_terminates index name :
  acyclic index →
  ∃ r, ∀ fuel, (size index ≤ fuel)%nat →
    getNowProxyNodeName fuel index name = Some r.
Proof.
  intros Hac. unfold getNowProxyNodeName.
  destruct (read index name) as [node|f|] eqn:Hread;
    [|by exists f|by exists name].
  apply read_Own in Hread.
  destruct (truthy_string name); [|by exists name].
  apply (getNowProxyNodeName_loop_terminates index Hac (size index) ∅ name);
    [done|set_solver|].
  rewrite difference_empty_L, size_dom. done.
Qed.

(** The resolver has no cycle detection: started on a key that lies on a
    cycle, the loop is still running whatever fuel it is given. *)
Lemma getNowProxyNodeName_loop_cycle index fuel :
  ∀ k node,
    tc (key_step index) k k → index !! k = Some node →
    getNowProxyNodeName_loop fuel index node = None.
Proof.
  induction fuel as [|fuel IH]; intros k node Hcyc Hk; [done|]. simpl.
  assert (∃ k', key_step index k k' ∧ tc (key_step index) k' k')
    as (k' & (node' & Hk' & Hnp & [nextNode Hnext]) & Hcyc').
  { inversion Hcyc as [? ? Hstep|? k' ? Hstep Hrest]; subst.
    - exists k. done.
    - exists k'. split; [done|]. eapply tc_r; eauto. }
  simplify_eq. rewrite Hnp, (proj2 (read_Own index k' nextNode) Hnext).
  by eapply IH.
Qed.

Lemma getNowProxyNodeName_cycle index fuel name :
  name ≠ "" → tc (key_step index) name name →
  getNowProxyNodeName fuel index name = None.
Proof.
  intros Hne Hcyc. unfold getNowProxyNodeName.
  assert (is_Some (index !! name)) as [node Hnode].
  { inversion Hcyc as [? ? (n & ? & _)|? ? ? (n & ? & _) _]; eauto. }
  rewrite (proj2 (read_Own index name node) Hnode).
  rewrite (proj2 (truthy_string_true name)) by done.
  by eapply getNowProxyNodeName_loop_cycle.
Qed.

(** An index whose chains all end has no cycle, so [acyclic] asks no
    more of the index than [chains_end] does. *)
Lemma chains_end_acyclic index : chains_end index → acyclic index.
Proof.
  intros Hend k Hcyc.
  assert (is_Some (index !! k)) as [node Hnode].
  { inversion Hcyc as [? ? (n & ? & _)|? ? ? (n & ? & _) _]; eauto. }
  destruct (Hend k node Hnode) as (n & last & Hwalk & Hlast).
  destruct (getNowProxyNodeName_loop_walk index n node last Hwalk Hlast)
    as [r Hsome].
  specialize (Hsome (S n) (Nat.lt_succ_diag_r n)).
  rewrite (getNowProxyNodeName_loop_cycle index (S n) k node Hcyc Hnode)
    in Hsome.
  discriminate.
Qed.

(** Entries written by [setProxiesInfo] sit under their own name. *)
Lemma merged_nodeMap_keyed old nodes :
  keyed_by_name old → keyed_by_name (merged_nodeMap old nodes).
Proof.
  intros Hold. unfold keyed_by_name, merged_nodeMap.
  apply (write_all_keyed Proxy.name toProxyInfo ProxyInfo.name); done.
Qed.

(** ** Order of the published proxies *)

Lemma indexOf_lt x l : indexOf l x < Z.of_nat (length l).
Proof.
  induction l as [|y l IH]; simpl; [lia|].
  destruct (String.eqb y x); [lia|].
  destruct (indexOf l x <? 0) eqn:E; [lia|]. apply Z.ltb_ge in E. lia.
Qed.

Lemma indexOf_snoc_absent x l :
  x ∉ l → indexOf (l ++ [x]) x = Z.of_nat (length l).
Proof.
  induction l as [|y l IH]; simpl.
  - intros _. by rewrite String.eqb_refl.
  - rewrite not_elem_of_cons. intros [Hxy Hl].
    destruct (String.eqb_spec y x) as [->|_]; [done|].
    rewrite IH by done.
    destruct (Z.of_nat (length l) <? 0) eqn:E; [|lia].
    apply Z.ltb_lt in E. lia.
Qed.

Lemma sortedProxies_of_perm fetched GLOBAL :
  sortedProxies_of fetched GLOBAL
  ≡ₚ filter (λ p, has_members p) (Obj.values fetched).
Proof. apply (js_sort_perm (rank (sortIndex_of GLOBAL))). Qed.

Lemma sortedProxies_of_sorted fetched GLOBAL :
  StronglySorted
    (λ p q, rank (sortIndex_of GLOBAL) p ≤ rank (sortIndex_of GLOBAL) q)
    (sortedProxies_of fetched GLOBAL).
Proof. apply (js_sort_sorted (rank (sortIndex_of GLOBAL))). Qed.

Lemma sortedProxies_of_stable fetched GLOBAL k :
  filter (λ p, rank (sortIndex_of GLOBAL) p = k)
         (sortedProxies_of fetched GLOBAL)
  = filter (λ p, rank (sortIndex_of GLOBAL) p = k)
           (filter (λ p, has_members p) (Obj.values fetched)).
Proof. apply (js_sort_stable (rank (sortIndex_of GLOBAL))). Qed.

Lemma filter_ext_eq {A} (P Q : A → Prop)
    `{!∀ x, Decision (P x)} `{!∀ x, Decision (Q x)} (l : list A) :
  (∀ x, P x ↔ Q x) → filter P l = filter Q l.
Proof.
  intros HPQ. induction l as [|x l IH]; [done|].
  rewrite !filter_cons, IH.
  destruct (decide (P x)) as [HP|HP], (decide (Q x)) as [HQ|HQ]; try done;
    exfalso; [apply HQ, HPQ, HP|apply HP, HPQ, HQ].
Qed.

Lemma Obj_get_elem {V} (o : list (string * V)) k v :
  Obj.get o k = Some v → (k, v) ∈ o.
Proof.
  induction o as [|[k' v'] o IH]; simpl; [done|].
  destruct (String.eqb_spec k' k) as [->|_].
  - intros ?. simplify_eq. left.
  - intros ?. right. by apply IH.
Qed.

Lemma Obj_unique {V} (o : list (string * V)) k v1 v2 :
  NoDup (Obj.keys o) → (k, v1) ∈ o → (k, v2) ∈ o → v1 = v2.
Proof.
  unfold Obj.keys. induction o as [|[k' v'] o IH]; simpl.
  - by intros _ ?%elem_of_nil.
  - rewrite NoDup_cons. intros [Hnot Hnd] H1 H2.
    assert (∀ v, (k', v) ∈ o → False) as Hfresh.
    { intros v Hv. apply Hnot. apply list_elem_of_fmap. by exists (k', v). }
    apply elem_of_cons in H1 as [H1|H1], H2 as [H2|H2]; simplify_eq.
    + done.
    + by destruct (Hfresh v2).
    + by destruct (Hfresh v1).
    + by apply IH.
Qed.

Lemma StronglySorted_snoc_elem {A} (R : A → A → Prop) l x y :
  StronglySorted R (l ++ [x]) → y ∈ l → R y x.
Proof.
  induction l as [|z l IH]; simpl.
  - by intros _ ?%elem_of_nil.
  - intros Hs Hy. apply StronglySorted_inv in Hs as [Hs Hz].
    apply elem_of_cons in Hy as [->|Hy]; [|by apply IH].
    rewrite Forall_forall in Hz. apply Hz, elem_of_app. right. left.
Qed.

(** [proxy.all?.length] is truthy exactly for a member list that is
    there and not empty. *)
Lemma has_members_nonempty proxy :
  has_members proxy = true
  ↔ Proxy.all proxy ≠ None ∧ Proxy.all proxy ≠ Some [].
Proof.
  unfold has_members, truthy_number.
  destruct (Proxy.all proxy) as [[|m l]|]; simpl.
  - split; [done|]. by intros [_ ?].
  - split; [|done]. intros _. by split.
  - split; [done|]. by intros [? _].
Qed.

(** [indexOf] gives the position of the first occurrence. *)
Lemma first_at_indexOf l x i : first_at l x i → indexOf l x = Z.of_nat i.
Proof.
  intros [Hat Hfirst].
  assert (x ∈ l) as Hin by (eapply list_elem_of_lookup_2; done).
  apply indexOf_present in Hin.
  destruct (indexOf_first x l (Z.to_nat (indexOf l x)))
    as [Hat' Hfirst']; [lia|].
  destruct (lt_eq_lt_dec i (Z.to_nat (indexOf l x))) as [[Hlt|Heq]|Hgt].
  - by destruct (Hfirst' i Hlt).
  - lia.
  - by destruct (Hfirst _ Hgt).
Qed.

(** [GLOBAL] is the last of the published proxies when it has members
    that do not name it and the fetched mapping holds each proxy once,
    under its name. *)
Lemma GLOBAL_published_last remote st st' fetched GLOBAL :
  fetchProxiesAPI remote = inr fetched →
  Obj.get fetched "GLOBAL" = Some GLOBAL →
  refresh remote st = (Returned (), st') →
  named_by_key fetched →
  NoDup (Obj.keys fetched) →
  has_members GLOBAL = true →
  "GLOBAL" ∉ default [] (Proxy.all GLOBAL) →
  last (proxies st') = Some GLOBAL.
Proof.
  intros Hf Hg Hr Hnamed Hnodup Hmem Hself.
  apply fetchProxies_returned in Hr
    as (providers & fetched' & GLOBAL' & _ & Hf' & Hg' & ->).
  assert (fetched' = fetched) as -> by congruence.
  assert (GLOBAL' = GLOBAL) as -> by congruence. simpl.
  pose proof (Obj_get_elem _ _ _ Hg) as HGin.
  pose proof (Hnamed _ _ HGin) as HGname.
  set (members := default [] (Proxy.all GLOBAL)) in *.
  set (L := sortedProxies_of fetched GLOBAL).
  assert (GLOBAL ∈ L) as HGL.
  { unfold L. rewrite sortedProxies_of_perm. apply list_elem_of_filter.
    split; [by rewrite Hmem|].
    apply list_elem_of_fmap. by exists ("GLOBAL", GLOBAL). }
  assert (rank (sortIndex_of GLOBAL) GLOBAL = Z.of_nat (length members))
    as HGrank.
  { unfold rank, sortIndex_of. rewrite HGname.
    by apply indexOf_snoc_absent. }
  destruct (last L) as [x|] eqn:Hlast; cycle 1.
  { apply last_None in Hlast. rewrite Hlast in HGL.
    by apply elem_of_nil in HGL. }
  f_equal. apply last_Some in Hlast as [l' HL].
  assert (rank (sortIndex_of GLOBAL) GLOBAL ≤ rank (sortIndex_of GLOBAL) x)
    as Hle.
  { pose proof (sortedProxies_of_sorted fetched GLOBAL) as Hsorted.
    fold L in Hsorted. rewrite HL in Hsorted, HGL.
    apply elem_of_app in HGL as [HGl|HGx].
    - by apply (StronglySorted_snoc_elem _ _ _ _ Hsorted).
    - apply list_elem_of_singleton in HGx. by rewrite HGx. }
  assert (rank (sortIndex_of GLOBAL) x = Z.of_nat (length members))
    as Hxrank.
  { pose proof (indexOf_lt (Proxy.name x) (sortIndex_of GLOBAL)) as Hlt.
    unfold sortIndex_of in Hlt at 2. rewrite length_app in Hlt.
    simpl in Hlt. fold members in Hlt. unfold rank in *. lia. }
  assert (Proxy.name x = "GLOBAL") as Hxname.
  { apply indexOf_first in Hxrank as [Hat _].
    unfold sortIndex_of in Hat. fold members in Hat.
    rewrite list_lookup_middle in Hat by done. congruence. }
  assert (x ∈ Obj.values fetched) as Hxin.
  { assert (x ∈ L) as HxL by (rewrite HL; apply elem_of_app; right; left).
    unfold L in HxL. rewrite sortedProxies_of_perm in HxL.
    by apply list_elem_of_filter in HxL as [_ ?]. }
  apply list_elem_of_fmap in Hxin as ([k x'] & -> & Hxin). simpl in *.
  pose proof (Hnamed _ _ Hxin) as Hk. simpl in Hk.
  assert (k = "GLOBAL") as -> by congruence.
  by apply (Obj_unique fetched "GLOBAL").
Qed.


(** C4. After a refresh that returns, the published proxies are the
    fetched proxies whose member list is there and not empty, each as
    often as it was fetched; they stand in the order of the member list
    of [GLOBAL] followed by ["GLOBAL"]: of two published proxies whose
    names occur there, the one that stands first has the name whose
    first occurrence is not later.  A proxy whose name does not occur
    compares with index [-1] and stands before every proxy whose name
    occurs; the proxies whose names do not occur keep the order in
    which they were fetched.  When the fetched mapping holds each proxy
    once, under its name, and [GLOBAL] has members that do not name it,
    [GLOBAL] is the last of the published proxies. *)
Theorem fetchProxies_proxies_order remote st st' fetched GLOBAL :
  fetchProxiesAPI remote = inr fetched →
  Obj.get fetched "GLOBAL" = Some GLOBAL →
  refresh remote st = (Returned (), st') →
  let order := default [] (Proxy.all GLOBAL) ++ ["GLOBAL"] in
  let groups :=
    filter (λ p, Proxy.all p ≠ None ∧ Proxy.all p ≠ Some [])
           (Obj.values fetched) in
  proxies st' ≡ₚ groups
  ∧ (∀ i j p q a b,
       proxies st' !! i = Some p → proxies st' !! j = Some q →
       (i < j)%nat →
       first_at order (Proxy.name p) a → first_at order (Proxy.name q) b →
       (a ≤ b)%nat)
  ∧ (∀ p, Proxy.name p ∉ order → indexOf order (Proxy.name p) = -1)
  ∧ (∀ i j p q,
       proxies st' !! i = Some p → proxies st' !! j = Some q →
       Proxy.name p ∉ order → Proxy.name q ∈ order → (i < j)%nat)
  ∧ filter (λ p, Proxy.name p ∉ order) (proxies st')
    = filter (λ p, Proxy.name p ∉ order) groups
  ∧ (named_by_key fetched →
     NoDup (Obj.keys fetched) →
     Proxy.all GLOBAL ≠ None → Proxy.all GLOBAL ≠ Some [] →
     "GLOBAL" ∉ default [] (Proxy.all GLOBAL) →
     last (proxies st') = Some GLOBAL).
Proof.
  intros Hf Hg Hr order groups.
  pose proof (GLOBAL_published_last _ _ _ _ _ Hf Hg Hr) as Hlast.
  assert (∀ p, Proxy.all p ≠ None ∧ Proxy.all p ≠ Some [] ↔ has_members p)
    as Hmem.
  { intros p. rewrite Is_true_true. symmetry. apply has_members_nonempty. }
  subst groups.
  rewrite (filter_ext_eq _ (λ p, Is_true (has_members p)) _ Hmem).
  change order with (sortIndex_of GLOBAL) in *. clear order.
  set (sortIndex := sortIndex_of GLOBAL) in *.
  apply fetchProxies_returned in Hr
    as (providers & fetched' & GLOBAL' & _ & Hf' & Hg' & ->).
  rewrite Hf in Hf'. simplify_eq. simpl in *.
  split; [apply sortedProxies_of_perm|].
  split.
  { intros i j p q a b Hi Hj Hij Ha Hb.
    apply first_at_indexOf in Ha, Hb.
    destruct (Z.lt_ge_cases (rank sortIndex q) (rank sortIndex p))
      as [Hlt|Hge]; [|unfold rank in Hge; lia].
    assert (j < i)%nat; [|lia].
    eapply (sorted_lookup_lt (rank sortIndex)); eauto using
      sortedProxies_of_sorted. }
  split; [intros p; apply indexOf_absent|].
  split.
  { intros i j p q Hi Hj Hp Hq.
    eapply (sorted_lookup_lt (rank sortIndex)); eauto using
      sortedProxies_of_sorted.
    apply indexOf_absent in Hp. apply indexOf_present in Hq.
    unfold rank. lia. }
  split.
  { rewrite (filter_ext_eq _ (λ p, rank sortIndex p = -1))
      by (intros p; symmetry; apply indexOf_neg_iff).
    rewrite (filter_ext_eq (λ p, Proxy.name p ∉ sortIndex)
               (λ p, rank sortIndex p = -1))
      by (intros p; symmetry; apply indexOf_neg_iff).
    apply sortedProxies_of_stable. }
  intros Hnamed Hnodup Hsome Hnonempty Hself.
  apply Hlast; try done. by apply has_members_nonempty.
Qed.


(** ** What a refresh writes into the two maps *)


Lemma Obj_get_absent {V} (o : list (string * V)) k :
  k ∉ Obj.keys o → Obj.get o k = None.
Proof.
  unfold Obj.keys. induction o as [|[k' v'] o IH]; simpl; [done|].
  rewrite not_elem_of_cons. intros [Hne Hin].
  destruct (String.eqb_spec k' k) as [->|_]; [done|by apply IH].
Qed.

Lemma provider_nodes_name fetched provider node :
  node ∈ provider_nodes fetched provider →
  Obj.has fetched (Proxy.name node) = false
  ∧ ∃ n, n ∈ ProxyProvider.proxies provider
         ∧ node = Proxy.with_provider n (ProxyProvider.name provider).
Proof.
  unfold provider_nodes. intros (n & -> & Hn)%list_elem_of_fmap.
  apply list_elem_of_filter in Hn as [Hhas Hn]. split; [|eauto].
  simpl. by destruct (Obj.has fetched (Proxy.name n)).
Qed.

Lemma getLatencyFromProxy_with_provider node p url fallback :
  getLatency (Proxy.with_provider node p) url fallback
  = getLatency node url fallback.
Proof. reflexivity. Qed.

(** The last node fetched under a name gives the two entries of that
    name. *)
Lemma last_write_gives_entries
    remote st st' providers fetched GLOBAL :
  fetchProxyProvidersAPI remote = inr providers →
  fetchProxiesAPI remote = inr fetched →
  Obj.get fetched "GLOBAL" = Some GLOBAL →
  refresh remote st = (Returned (), st') →
  ∀ (before : list Proxy.t) node after,
    allProxies_of fetched (sortedProviders_of providers)
    = before ++ node :: after →
    (∀ n, n ∈ after → Proxy.name n ≠ Proxy.name node) →
    proxyNodeMap st' !! Proxy.name node = Some (toProxyInfo node)
    ∧ latencyMap st' !! Proxy.name node
      = Some (getLatency node urlForLatencyTest true).
Proof.
  intros Hp Hf Hg Hr before node after Hnodes Hafter.
  rewrite (fetchProxies_success _ _ _ _ _ Hp Hf Hg) in Hr.
  simplify_eq. simpl. rewrite Hnodes.
  unfold merged_nodeMap, merged_latencyMap. split.
  - by apply (write_all_last Proxy.name toProxyInfo).
  - by apply (write_all_last Proxy.name
                (λ n, getLatency n urlForLatencyTest true)).
Qed.


(** C7. When the provider request or the proxy request is rejected, the
    refresh throws one of the rejections and leaves the published
    proxies, providers, node index and latency map as they were. *)
Theorem fetchProxies_fetch_failure remote st :
  (∃ e, fetchProxyProvidersAPI remote = inl e)
  ∨ (∃ e, fetchProxiesAPI remote = inl e) →
  ∃ e st',
    refresh remote st = (Thrown e, st')
    ∧ (fetchProxyProvidersAPI remote = inl e
       ∨ fetchProxiesAPI remote = inl e)
    ∧ proxies st' = proxies st
    ∧ proxyProviders st' = proxyProviders st
    ∧ proxyNodeMap st' = proxyNodeMap st
    ∧ latencyMap st' = latencyMap st.
Proof.
  intros Hfail.
  assert (∃ e, Promise_all (proxiesRejectFirst remote)
                 (fetchProxyProvidersAPI remote) (fetchProxiesAPI remote)
               = inl e
               ∧ (fetchProxyProvidersAPI remote = inl e
                  ∨ fetchProxiesAPI remote = inl e)) as (e & He & Hwhich).
  { destruct (fetchProxyProvidersAPI remote) as [e1|providers],
             (fetchProxiesAPI remote) as [e2|fetched]; simpl.
    - destruct (proxiesRejectFirst remote); eauto.
    - eauto.
    - eauto.
    - destruct Hfail as [[? ?]|[? ?]]; discriminate. }
  eexists e, _. split; [by apply fetchProxies_rejected|].
  simpl. done.
Qed.


(** The claim of C10 on the names that are none of the inherited
    property names: when such a name [X] is no key of the fetched
    proxies and several shown providers supply a node named [X], the
    entries of [X] in the node index and the latency map are those of
    the last such node of the provider listed last among them, and the
    entry of the node index names that provider. *)
Lemma fetchProxies_last_provider_wins
    remote st st' providers fetched GLOBAL X
    listed_before earlier listed_between later listed_after
    n1 ns1 n2 ns2 :
  fetchProxyProvidersAPI remote = inr providers →
  fetchProxiesAPI remote = inr fetched →
  Obj.get fetched "GLOBAL" = Some GLOBAL →
  refresh remote st = (Returned (), st') →
  X ∉ Obj.keys fetched →
  X ∉ Object_prototype_names →
  sortedProviders_of providers
  = listed_before ++ earlier :: listed_between ++ later :: listed_after →
  n1 ∈ ProxyProvider.proxies earlier → Proxy.name n1 = X →
  ProxyProvider.proxies later = ns1 ++ n2 :: ns2 → Proxy.name n2 = X →
  (∀ n, n ∈ ns2 → Proxy.name n ≠ X) →
  (∀ P n, P ∈ listed_after → n ∈ ProxyProvider.proxies P →
          Proxy.name n ≠ X) →
  (∃ l1 l2 l3,
     allProxies_of fetched (sortedProviders_of providers)
     = l1 ++ Proxy.with_provider n1 (ProxyProvider.name earlier)
          :: l2 ++ Proxy.with_provider n2 (ProxyProvider.name later) :: l3)
  ∧ proxyNodeMap st' !! X
    = Some (toProxyInfo
              (Proxy.with_provider n2 (ProxyProvider.name later)))
  ∧ (∀ info, proxyNodeMap st' !! X = Some info →
             ProxyInfo.provider info = ProxyProvider.name later)
  ∧ latencyMap st' !! X = Some (getLatency n2 urlForLatencyTest true).
Proof.
  intros Hp Hf Hg Hr HX Hplain Hlisted Hn1 Hname1 Hlater Hname2 Hns2 Hafter.
  assert (Obj.has fetched X = false) as Hhas
    by (unfold Obj.has; rewrite Obj_get_absent by done;
        by apply bool_decide_eq_false_2).
  assert (∀ P n, n ∈ ProxyProvider.proxies P → Proxy.name n = X →
                 Proxy.with_provider n (ProxyProvider.name P)
                   ∈ provider_nodes fetched P) as Hkept.
  { intros P n Hn Hname. unfold provider_nodes.
    apply (list_elem_of_fmap_2
             (λ proxy, Proxy.with_provider proxy (ProxyProvider.name P))).
    apply list_elem_of_filter. split; [|done].
    rewrite Hname, Hhas. done. }
  set (n2' := Proxy.with_provider n2 (ProxyProvider.name later)).
  set (keep := λ proxy : Proxy.t, negb (Obj.has fetched (Proxy.name proxy))).
  set (tag := λ (P : ProxyProvider.t) (proxy : Proxy.t),
                Proxy.with_provider proxy (ProxyProvider.name P)).
  assert (provider_nodes fetched later
          = (tag later <$> filter (λ p, keep p) ns1)
              ++ n2' :: (tag later <$> filter (λ p, keep p) ns2)) as Hpn.
  { unfold provider_nodes. rewrite Hlater, filter_app, filter_cons_True.
    - by rewrite fmap_app, fmap_cons.
    - unfold keep. rewrite Hname2, Hhas. done. }
  assert (allProxies_of fetched (sortedProviders_of providers)
          = (Obj.values fetched
               ++ (listed_before ≫= provider_nodes fetched)
               ++ provider_nodes fetched earlier
               ++ (listed_between ≫= provider_nodes fetched)
               ++ (tag later <$> filter (λ p, keep p) ns1))
              ++ n2' :: ((tag later <$> filter (λ p, keep p) ns2)
                           ++ (listed_after ≫= provider_nodes fetched)))
    as Hall.
  { unfold allProxies_of.
    rewrite Hlisted, bind_app, bind_cons, bind_app, bind_cons, Hpn.
    by rewrite <- !app_assoc. }
  assert (∀ n, n ∈ (tag later <$> filter (λ p, keep p) ns2)
                     ++ (listed_after ≫= provider_nodes fetched) →
               Proxy.name n ≠ Proxy.name n2') as Hlast.
  { intros n [Hn|Hn]%elem_of_app; simpl; rewrite Hname2.
    - apply list_elem_of_fmap in Hn as (n' & -> & Hn').
      apply list_elem_of_filter in Hn' as [_ Hn']. simpl. by apply Hns2.
    - apply list_elem_of_bind in Hn as (P & Hn & HP).
      apply provider_nodes_name in Hn as (_ & n' & Hn' & ->).
      simpl. by apply (Hafter P). }
  destruct (last_write_gives_entries remote st st' providers
              fetched GLOBAL Hp Hf Hg Hr _ _ _ Hall Hlast) as [Hnode Hlat].
  simpl in Hnode, Hlat. rewrite Hname2 in Hnode, Hlat.
  split; [|split; [|split]].
  - destruct (list_elem_of_split _ _ (Hkept earlier n1 Hn1 Hname1))
      as (e1 & e2 & He).
    rewrite Hall, He.
    eexists (Obj.values fetched
               ++ (listed_before ≫= provider_nodes fetched) ++ e1),
            (e2 ++ (listed_between ≫= provider_nodes fetched)
                ++ (tag later <$> filter (λ p, keep p) ns1)), _.
    repeat (rewrite <- app_assoc; simpl). reflexivity.
  - exact Hnode.
  - intros info Hinfo. rewrite Hnode in Hinfo. by simplify_eq.
  - exact Hlat.
Qed.

(** C10. The code at the failing input.  The providers [q1] and [q2]
    are both shown and both supply a node named [toString], which is no
    key of the fetched proxies.  The test [proxy.name in proxies] holds
    for it all the same, because every object inherits a property of
    that name: the filter drops both copies, and the refresh writes no
    entry under [toString], where the claim has the entries of the node
    of [q2]. *)
Theorem fetchProxies_drops_inherited_names :
  fetchProxies Ex.NOT_CONNECTED Ex.url Ex2.remote_toString emptyStore
  = (Returned (),
     (fetchProxies Ex.NOT_CONNECTED Ex.url Ex2.remote_toString emptyStore).2)
  ∧ Obj.get Ex.fetched "toString" = None
  ∧ sortedProviders_of [("q1", Ex2.q1); ("q2", Ex2.q2)] = [Ex2.q1; Ex2.q2]
  ∧ Obj.has Ex.fetched "toString" = true
  ∧ provider_nodes Ex.fetched Ex2.q1 = []
  ∧ provider_nodes Ex.fetched Ex2.q2 = []
  ∧ proxyNodeMap
      (fetchProxies Ex.NOT_CONNECTED Ex.url Ex2.remote_toString emptyStore).2
    !! "toString" = None
  ∧ latencyMap
      (fetchProxies Ex.NOT_CONNECTED Ex.url Ex2.remote_toString emptyStore).2
    !! "toString" = None.
Proof. repeat split. Qed.

(** ** Guarded node latency test *)

(** C9. The test resolves [proxyName] to its terminal node name, sends
    one latency-test request for that name, and writes the delay it is
    answered with, or [NOT_CONNECTED] when the request is rejected, into
    the latency map under that name.  It returns, sends no other request
    (no refresh), and leaves the published proxies, providers and node
    index as they were. *)
Theorem proxyLatencyTest_terminal_node
    remote fuel proxyName provider st terminalName :
  getNowProxyNodeName fuel (proxyNodeMap st) proxyName = Some terminalName →
  ∃ st',
    latencyTest remote fuel proxyName provider st = (Returned (), st')
    ∧ issued st'
      = issued st ++ [ProxyLatencyTest terminalName provider
                        urlForLatencyTest latencyTestTimeoutDuration]
    ∧ (∀ delay,
         proxyLatencyTestAPI remote terminalName provider
           urlForLatencyTest latencyTestTimeoutDuration = inr delay →
         latencyMap st' = <[terminalName := delay]> (latencyMap st))
    ∧ (∀ e,
         proxyLatencyTestAPI remote terminalName provider
           urlForLatencyTest latencyTestTimeoutDuration = inl e →
         latencyMap st' = <[terminalName := NOT_CONNECTED]> (latencyMap st))
    ∧ proxies st' = proxies st
    ∧ proxyProviders st' = proxyProviders st
    ∧ proxyNodeMap st' = proxyNodeMap st.
Proof.
  intros Hres.
  unfold proxyLatencyTest, setWithCallback, when_settled, try_catch, resolve,
    mbind, M_bind, bind.
  rewrite Hres. simpl.
  destruct (proxyLatencyTestAPI remote terminalName provider
              urlForLatencyTest latencyTestTimeoutDuration) as [e|delay];
    simpl; eexists; (split; [reflexivity|]); simpl;
    repeat split; try done; intros; by simplify_eq.
Qed.

End Properties.

(** * The operations at work on the small engine *)

Example refresh_scenario :
  Proxy.name <$> proxies (fetchProxies Ex.NOT_CONNECTED Ex.url Ex.scenario
                            emptyStore).2
  = ["A"; "B"; "GLOBAL"].
Proof. reflexivity. Qed.

Example refresh_published :
  Proxy.name <$> proxies Ex.store1 = ["C"; "A"; "B"; "GLOBAL"]
  ∧ ProxyProvider.name <$> proxyProviders Ex.store1 = ["p1"; "p2"].
Proof. split; reflexivity. Qed.

Example resolve_chain :
  getNowProxyNodeName 3 (proxyNodeMap Ex.store1) "GLOBAL" = Some "X"
  ∧ getNowProxyNodeName 2 (proxyNodeMap Ex.store1) "GLOBAL" = None.
Proof. split; reflexivity. Qed.

Lemma getLatencyFromProxy_cases_witness :
  getLatencyFromProxy Ex.NOT_CONNECTED Ex.measured Ex.url true = 120
  ∧ getLatencyFromProxy Ex.NOT_CONNECTED Ex.zero_measured Ex.url false
    = Ex.NOT_CONNECTED
  ∧ getLatencyFromProxy Ex.NOT_CONNECTED Ex.zero_measured Ex.url true = 30.
Proof.
  assert (∀ d, extra_last_delay Ex.zero_measured Ex.url d → d = 0) as Hzero.
  { intros d (e & samples & s & He & Hurl & Hlast & Hd).
    simpl in He. simplify_eq. rewrite lookup_singleton_eq in Hurl.
    simplify_eq. simpl in Hlast. by simplify_eq. }
  destruct (getLatencyFromProxy_cases Ex.NOT_CONNECTED
              Ex.measured Ex.url true) as (Hmeasured & _ & _).
  destruct (getLatencyFromProxy_cases Ex.NOT_CONNECTED
              Ex.zero_measured Ex.url false) as (_ & _ & Hoff).
  destruct (Hoff Hzero) as (Hnone & _ & _).
  destruct (getLatencyFromProxy_cases Ex.NOT_CONNECTED
              Ex.zero_measured Ex.url true) as (_ & _ & Hon).
  destruct (Hon Hzero) as (_ & Hhistory & _).
  split; [|split].
  - apply (Hmeasured 120); [|lia].
    eexists _, _, (Ex.sample 120).
    split; [reflexivity|]. split; [apply lookup_singleton_eq|]. done.
  - apply Hnone. reflexivity.
  - apply (Hhistory eq_refl 30).
    exists [Ex.sample 30], (Ex.sample 30). done.
Defined.

Lemma getNowProxyNodeName_plain_names_at_work :
  getNowProxyNodeName 0 Ex.index "nowhere" = Some "nowhere"
  ∧ getNowProxyNodeName 1 Ex.index "Auto" = Some "Auto"
  ∧ getNowProxyNodeName 2 Ex.index "G" = Some "A".
Proof.
  destruct (getNowProxyNodeName_plain_names Ex.index)
    as (Hmiss & Hself & Hdangling).
  split; [|split].
  - apply Hmiss; [reflexivity|].
    apply (bool_decide_unpack _). vm_compute. exact I.
  - apply (Hself 1%nat "Auto" (Ex.info "Auto" (Some "Auto")));
      [reflexivity..|lia].
  - apply (Hdangling 2%nat "G" (Ex.info "G" (Some "A")) 1%nat
             (Ex.info "A" (Some "gone")) "gone");
      [done|reflexivity| |reflexivity|reflexivity| |lia].
    + eapply nsteps_l; [|apply nsteps_O].
      exists "A". split; reflexivity.
    + apply (bool_decide_unpack _). vm_compute. exact I.
Defined.

(** A measure that drops along every followed pointer rules cycles
    out. *)
Lemma acyclic_of_measure index (measure : string → nat) :
  (∀ k k', key_step index k k' → (measure k' < measure k)%nat) →
  acyclic index.
Proof.
  intros Hdrop k Hcyc.
  assert (∀ a b, tc (key_step index) a b → (measure b < measure a)%nat)
    as Htc.
  { induction 1 as [a b Hab|a b c Hab _ IH]; [by apply Hdrop|].
    apply Hdrop in Hab. lia. }
  apply Htc in Hcyc. lia.
Qed.

Lemma Ex_index_acyclic : acyclic Ex.index.
Proof.
  apply (acyclic_of_measure _ (λ k, if String.eqb k "G" then 1%nat else O)).
  intros k k' (node & Hk & Hnp & Hsome). unfold Ex.index in Hk.
  rewrite !lookup_insert_Some, lookup_empty in Hk.
  destruct Hk as [[<- <-]|[_ [[<- <-]|[_ [[<- <-]|[_ ?]]]]]];
    try done; vm_compute in Hnp; simplify_eq.
  - simpl. lia.
  - destruct Hsome as [? Hsome]. vm_compute in Hsome. discriminate.
Defined.

Lemma getNowProxyNodeName_terminates_witness :
  ∃ r, ∀ fuel, (size Ex.index ≤ fuel)%nat →
    getNowProxyNodeName fuel Ex.index "G" = Some r.
Proof.
  apply (getNowProxyNodeName_terminates Ex.index "G"), Ex_index_acyclic.
Defined.

(** Two groups that select each other keep the resolver running. *)
Example resolve_cycle fuel : getNowProxyNodeName fuel Ex.cyclic "P" = None.
Proof.
  apply getNowProxyNodeName_cycle; [done|].
  eapply tc_l; [|apply tc_once].
  - exists (Ex.info "P" (Some "Q")). repeat split; try reflexivity.
    by exists (Ex.info "Q" (Some "P")).
  - exists (Ex.info "Q" (Some "P")). repeat split; try reflexivity.
    by exists (Ex.info "P" (Some "Q")).
Qed.

Lemma Ex_fetched_named : named_by_key Ex.fetched.
Proof.
  intros k proxy Hin. unfold Ex.fetched in Hin.
  repeat (apply elem_of_cons in Hin as [Hin|Hin]; [by simplify_eq|]).
  by apply elem_of_nil in Hin.
Qed.

Lemma fetchProxies_proxies_order_witness :
  proxies Ex.store1
  ≡ₚ filter (λ p, Proxy.all p ≠ None ∧ Proxy.all p ≠ Some [])
            (Obj.values Ex.fetched)
  ∧ filter (λ p, Proxy.name p ∉ ["A"; "B"; "GLOBAL"]) (proxies Ex.store1)
    = [Ex.C]
  ∧ last (proxies Ex.store1) = Some Ex.GLOBAL.
Proof.
  destruct (fetchProxies_proxies_order Ex.NOT_CONNECTED Ex.url Ex.remote
              emptyStore Ex.store1 Ex.fetched Ex.GLOBAL
              eq_refl eq_refl eq_refl)
    as (Hperm & _ & _ & _ & Hstable & Hlast).
  split; [exact Hperm|].
  split; [etrans; [exact Hstable|reflexivity]|].
  apply Hlast; [exact Ex_fetched_named| | | |].
  - apply (bool_decide_unpack _). vm_compute. exact I.
  - discriminate.
  - discriminate.
  - apply (bool_decide_unpack _). vm_compute. exact I.
Defined.





Lemma fetchProxies_fetch_failure_witness :
  ∃ e st',
    fetchProxies Ex.NOT_CONNECTED Ex.url Ex.remote_down Ex.store1
    = (Thrown e, st')
    ∧ (fetchProxyProvidersAPI Ex.remote_down = inl e
       ∨ fetchProxiesAPI Ex.remote_down = inl e)
    ∧ proxies st' = proxies Ex.store1
    ∧ proxyProviders st' = proxyProviders Ex.store1
    ∧ proxyNodeMap st' = proxyNodeMap Ex.store1
    ∧ latencyMap st' = latencyMap Ex.store1.
Proof.
  apply (fetchProxies_fetch_failure Ex.NOT_CONNECTED Ex.url Ex.remote_down
           Ex.store1).
  right. exists (RemoteError "502"). reflexivity.
Defined.


Lemma fetchProxies_last_provider_wins_at_work :
  proxyNodeMap Ex.store1 !! "X"
  = Some (toProxyInfo (Proxy.with_provider (Ex.leaf "X" 20) "p2"))
  ∧ latencyMap Ex.store1 !! "X" = Some 20.
Proof.
  destruct (fetchProxies_last_provider_wins Ex.NOT_CONNECTED Ex.url
              Ex.remote emptyStore Ex.store1 Ex.providers Ex.fetched
              Ex.GLOBAL "X" [] Ex.p1 [] Ex.p2 []
              (Ex.leaf "X" 10) [] (Ex.leaf "X" 20) []
              eq_refl eq_refl eq_refl eq_refl)
    as (_ & Hnode & _ & Hlat).
  - apply (bool_decide_unpack _). vm_compute. exact I.
  - apply (bool_decide_unpack _). vm_compute. exact I.
  - reflexivity.
  - apply list_elem_of_lookup. by exists 0%nat.
  - reflexivity.
  - reflexivity.
  - reflexivity.
  - by intros n ?%elem_of_nil.
  - by intros P n ?%elem_of_nil.
  - split; [exact Hnode|exact Hlat].
Defined.

Lemma proxyLatencyTest_terminal_node_witness :
  ∃ st',
    proxyLatencyTest Ex.NOT_CONNECTED Ex.url Ex.timeout Ex.remote 3
      "GLOBAL" "" Ex.store1 = (Returned (), st')
    ∧ issued st'
      = issued Ex.store1 ++ [ProxyLatencyTest "X" "" Ex.url Ex.timeout]
    ∧ latencyMap st' = <["X" := 42]> (latencyMap Ex.store1).
Proof.
  destruct (proxyLatencyTest_terminal_node Ex.NOT_CONNECTED Ex.url Ex.timeout
              Ex.remote 3 "GLOBAL" "" Ex.store1 "X" eq_refl)
    as (st' & Hrun & Hissued & Hok & _).
  exists st'. split; [exact Hrun|]. split; [exact Hissued|].
  apply Hok. reflexivity.
Defined.

(** A rejected test writes [NOT_CONNECTED] over the latency the refresh
    had derived. *)
Example latency_test_rejected :
  latencyMap Ex.store2 !! "y" = Some 5
  ∧ latencyMap (proxyLatencyTest Ex.NOT_CONNECTED Ex.url Ex.timeout
                  Ex.remote_later 3 "B" "" Ex.store2).2 !! "y"
    = Some Ex.NOT_CONNECTED.
Proof. split; reflexivity. Qed.

(** * Further properties of the module *)

(** ** Writing nodes into a map, continued *)

Section FoldInsertMore.
Context {A V : Type} (key : A → string) (val : A → V).

Local Abbreviation write_all :=
  (foldl (λ (m : gmap string V) a, <[key a := val a]> m)).

Lemma write_all_dom (m : gmap string V) l :
  dom (write_all m l) = dom m ∪ list_to_set (key <$> l).
Proof.
  revert m. induction l as [|x l IH]; intros m.
  - simpl. by rewrite (right_id_L ∅ (∪)).
  - simpl. rewrite IH, dom_insert_L.
    rewrite (assoc_L (∪)). f_equal. apply (comm_L (∪)).
Qed.

(** The entry of a key is the last write under it, if there is one. *)
Lemma write_all_lookup (m : gmap string V) l i :
  write_all m l !! i
  = match last (filter (λ a, key a = i) l) with
    | Some a => Some (val a)
    | None => m !! i
    end.
Proof.
  revert m. induction l as [|x l IH]; intros m; simpl; [done|].
  rewrite IH, filter_cons.
  destruct (decide (key x = i)) as [Hx|Hx].
  - rewrite last_cons.
    destruct (last (filter (λ a, key a = i) l)); [done|].
    by rewrite <- Hx, lookup_insert_eq.
  - destruct (last (filter (λ a, key a = i) l)); [done|].
    by rewrite lookup_insert_ne.
Qed.

(** Writing the same nodes a second time changes nothing. *)
Lemma write_all_twice (m : gmap string V) l :
  write_all (write_all m l) l = write_all m l.
Proof.
  apply map_eq. intros i. rewrite (write_all_lookup (write_all m l)).
  destruct (last (filter (λ a, key a = i) l)) as [a|] eqn:Hlast; [|done].
  by rewrite write_all_lookup, Hlast.
Qed.

End FoldInsertMore.

Section More.
Variable NOT_CONNECTED : Z.
Variable urlForLatencyTest : string.
Variable latencyTestTimeoutDuration : Z.

Local Abbreviation getLatency := (getLatencyFromProxy NOT_CONNECTED).
Local Abbreviation refresh := (fetchProxies NOT_CONNECTED urlForLatencyTest).
Local Abbreviation latencyTest :=
  (proxyLatencyTest NOT_CONNECTED urlForLatencyTest
     latencyTestTimeoutDuration).
Local Abbreviation latencyByName := (getLatencyByName).

(** ** Every way a refresh can end *)

Lemma fetchProxies_outcomes remote st :
  (∃ providers fetched GLOBAL,
     fetchProxyProvidersAPI remote = inr providers
     ∧ fetchProxiesAPI remote = inr fetched
     ∧ Obj.get fetched "GLOBAL" = Some GLOBAL
     ∧ refresh remote st
       = (Returned (),
          refreshed NOT_CONNECTED urlForLatencyTest st
            providers fetched GLOBAL))
  ∨ (∃ e, refresh remote st = (Thrown e, after_failed_refresh st)).
Proof.
  destruct (fetchProxyProvidersAPI remote) as [e1|providers] eqn:Hp.
  { right. destruct (fetchProxiesAPI remote) as [e2|fetched] eqn:Hf;
      eexists; apply fetchProxies_rejected; rewrite Hp, Hf; reflexivity. }
  destruct (fetchProxiesAPI remote) as [e2|fetched] eqn:Hf.
  { right. eexists. apply fetchProxies_rejected.
    rewrite Hp, Hf. reflexivity. }
  destruct (Obj.get fetched "GLOBAL") as [GLOBAL|] eqn:Hg.
  - left. exists providers, fetched, GLOBAL.
    repeat split; try done. by apply fetchProxies_success.
  - right. unfold fetchProxies, mbind, M_bind, bind. simpl.
    rewrite Hp, Hf. simpl. rewrite Hg. simpl.
    eexists. unfold after_failed_refresh. by rewrite <- app_assoc.
Qed.

Lemma fetchProxies_issued remote st :
  issued (refresh remote st).2
  = issued st ++ [FetchProxyProviders; FetchProxies].
Proof.
  destruct (fetchProxies_outcomes remote st)
    as [(providers & fetched & GLOBAL & _ & _ & _ & ->)|[e ->]]; done.
Qed.

(** X1. When both requests are answered and the proxies hold no
    [GLOBAL], the refresh throws a [TypeError] and publishes nothing. *)
Theorem fetchProxies_without_GLOBAL remote st providers fetched :
  fetchProxyProvidersAPI remote = inr providers →
  fetchProxiesAPI remote = inr fetched →
  "GLOBAL" ∉ Obj.keys fetched →
  ∃ msg st',
    refresh remote st = (Thrown (TypeError msg), st')
    ∧ published st' = published st
    ∧ issued st' = issued st ++ [FetchProxyProviders; FetchProxies].
Proof.
  intros Hp Hf Hg. apply Obj_get_absent in Hg.
  unfold fetchProxies, mbind, M_bind, bind. simpl.
  rewrite Hp, Hf. simpl. rewrite Hg. simpl.
  eexists _, _. split; [reflexivity|]. simpl.
  split; [done|]. by rewrite <- app_assoc.
Qed.

(** ** What the operations keep true of the store *)

Lemma refreshed_consistent st providers fetched GLOBAL :
  consistent st →
  consistent (refreshed NOT_CONNECTED urlForLatencyTest st
                providers fetched GLOBAL).
Proof.
  intros [Hkeyed Hdom]. split; simpl.
  - by apply merged_nodeMap_keyed.
  - unfold merged_nodeMap, merged_latencyMap.
    rewrite (write_all_dom Proxy.name toProxyInfo).
    rewrite (write_all_dom Proxy.name
               (λ n, getLatency n urlForLatencyTest true)).
    by apply union_mono.
Qed.

(** A refresh keeps the store consistent, however it ends. *)
Lemma fetchProxies_keeps_consistent remote st :
  consistent st → consistent (refresh remote st).2.
Proof.
  intros Hst.
  destruct (fetchProxies_outcomes remote st)
    as [(providers & fetched & GLOBAL & _ & _ & _ & ->)|[e ->]]; simpl.
  - by apply refreshed_consistent.
  - exact Hst.
Qed.


(** Whatever a node latency test does, it leaves the published lists and
    the node index alone and removes no latency. *)
Lemma proxyLatencyTest_frame remote fuel proxyName provider st :
  let st' := (latencyTest remote fuel proxyName provider st).2 in
  proxies st' = proxies st
  ∧ proxyProviders st' = proxyProviders st
  ∧ proxyNodeMap st' = proxyNodeMap st
  ∧ dom (latencyMap st) ⊆ dom (latencyMap st').
Proof.
  unfold proxyLatencyTest, setWithCallback, when_settled, try_catch, resolve,
    mbind, M_bind, bind.
  destruct (getNowProxyNodeName fuel (proxyNodeMap st) proxyName)
    as [nodeName|]; simpl; [|done].
  destruct (proxyLatencyTestAPI remote nodeName provider
              urlForLatencyTest latencyTestTimeoutDuration) as [e|delay];
    simpl; repeat split; try done; rewrite dom_insert_L;
    apply union_subseteq_r.
Qed.

(** X3. Every store the module can reach from the empty one, through
    refreshes and node latency tests with any answers, is consistent. *)
Theorem reachable_consistent st :
  reachable NOT_CONNECTED urlForLatencyTest latencyTestTimeoutDuration st →
  consistent st.
Proof.
  induction 1 as [|remote st _ IH|remote fuel proxyName provider st _ IH].
  - split; simpl; [|done]. intros k node Hk. by rewrite lookup_empty in Hk.
  - by apply fetchProxies_keeps_consistent.
  - destruct IH as [Hkeyed Hdom].
    destruct (proxyLatencyTest_frame remote fuel proxyName provider st)
      as (_ & _ & Hindex & Hlat).
    split; rewrite Hindex; [done|].
    by transitivity (dom (latencyMap st)).
Qed.

(** X4. A second refresh against an engine that answers as before
    returns too and publishes what the first one published. *)
Theorem fetchProxies_twice remote st st' :
  refresh remote st = (Returned (), st') →
  ∃ st'', refresh remote st' = (Returned (), st'')
          ∧ published st'' = published st'.
Proof.
  intros Hr.
  apply fetchProxies_returned in Hr
    as (providers & fetched & GLOBAL & Hp & Hf & Hg & ->).
  eexists. split; [by apply fetchProxies_success|].
  unfold published, refreshed, merged_nodeMap, merged_latencyMap. simpl.
  rewrite (write_all_twice Proxy.name toProxyInfo).
  by rewrite (write_all_twice Proxy.name
                (λ n, getLatency n urlForLatencyTest true)).
Qed.

(** ** The published list, continued *)

(** X5. When [GLOBAL] has members that do not name it and the fetched
    mapping holds each proxy once, under its name, [GLOBAL] is the last
    of the published proxies. *)
Theorem fetchProxies_GLOBAL_last remote st st' fetched GLOBAL :
  fetchProxiesAPI remote = inr fetched →
  Obj.get fetched "GLOBAL" = Some GLOBAL →
  refresh remote st = (Returned (), st') →
  named_by_key fetched →
  NoDup (Obj.keys fetched) →
  has_members GLOBAL = true →
  "GLOBAL" ∉ default [] (Proxy.all GLOBAL) →
  last (proxies st') = Some GLOBAL.
Proof. apply GLOBAL_published_last. Qed.

(** X6. A name that no top-level proxy bears, and that only providers
    named [default] or of vehicle type [Compatible] supply, gets no
    entry from a refresh: the nodes of such providers are not
    projected. *)
Theorem fetchProxies_hidden_provider_nodes
    remote st st' providers fetched X :
  fetchProxyProvidersAPI remote = inr providers →
  fetchProxiesAPI remote = inr fetched →
  refresh remote st = (Returned (), st') →
  (∀ p, p ∈ Obj.values fetched → Proxy.name p ≠ X) →
  (∀ P n, P ∈ Obj.values providers → n ∈ ProxyProvider.proxies P →
          Proxy.name n = X →
          ProxyProvider.name P = "default"
          ∨ ProxyProvider.vehicleType P = "Compatible") →
  proxyNodeMap st' !! X = proxyNodeMap st !! X
  ∧ latencyMap st' !! X = latencyMap st !! X.
Proof.
  intros Hp Hf Hr Htop Hhidden.
  apply fetchProxies_returned in Hr
    as (providers' & fetched' & GLOBAL & Hp' & Hf' & _ & ->).
  assert (providers' = providers) as -> by congruence.
  assert (fetched' = fetched) as -> by congruence. simpl.
  assert (∀ n, n ∈ allProxies_of fetched (sortedProviders_of providers) →
               Proxy.name n ≠ X) as Hnone.
  { intros n [Hn|Hn]%elem_of_app; [by apply Htop|].
    apply list_elem_of_bind in Hn as (P & Hn & HP).
    apply list_elem_of_filter in HP as [Hshown HP].
    apply provider_nodes_name in Hn as (_ & n0 & Hn0 & ->). simpl.
    intros Hname. unfold shown_provider in Hshown.
    destruct (Hhidden P n0 HP Hn0 Hname) as [Hd|Hc].
    - rewrite Hd in Hshown. simpl in Hshown. done.
    - rewrite Hc in Hshown. simpl in Hshown.
      by rewrite andb_false_r in Hshown. }
  unfold merged_nodeMap, merged_latencyMap. split.
  - by apply (write_all_other Proxy.name toProxyInfo).
  - by apply (write_all_other Proxy.name
                (λ n, getLatency n urlForLatencyTest true)).
Qed.

(** ** The resolver, continued *)

Lemma getNowProxyNodeName_loop_result index fuel :
  keyed_by_name index →
  plain_pointers index →
  ∀ k node r,
    index !! k = Some node →
    getNowProxyNodeName_loop fuel index node = Some r →
    ∃ last,
      index !! r = Some last
      ∧ (next_pointer last = None
         ∨ ∃ now, next_pointer last = Some now ∧ index !! now = None).
Proof.
  intros Hkeyed Hplain.
  induction fuel as [|fuel IH]; intros k node r Hk; [done|].
  simpl. destruct (next_pointer node) as [now|] eqn:Hnp.
  - pose proof (Hplain k node now Hk Hnp) as Hnow.
    destruct (index !! now) as [nextNode|] eqn:Hnext.
    + rewrite (proj2 (read_Own index now nextNode) Hnext).
      by apply (IH now).
    + rewrite (read_plain index now Hnext Hnow).
      intros ?. simplify_eq. exists node.
      rewrite (Hkeyed k node Hk). split; [done|]. right. eauto.
  - intros ?. simplify_eq. exists node.
    rewrite (Hkeyed k node Hk). split; [done|]. by left.
Qed.


(** Resolving is not idempotent on every index: the absent name
    [constructor] is read as the inherited function [Object], whose
    name is returned; when a group bears that name, it resolves
    further. *)
Lemma getNowProxyNodeName_twice_differs :
  keyed_by_name Ex2.named_Object
  ∧ getNowProxyNodeName 2 Ex2.named_Object "constructor" = Some "Object"
  ∧ getNowProxyNodeName 2 Ex2.named_Object "Object" = Some "Z".
Proof.
  split; [|by split].
  intros k node Hk. unfold Ex2.named_Object in Hk.
  apply lookup_insert_Some in Hk as [[<- <-]|[_ Hk]]; [done|].
  apply lookup_insert_Some in Hk as [[<- <-]|[_ Hk]]; [done|].
  by rewrite lookup_empty in Hk.
Qed.

(** X8. Resolving is idempotent on names and pointers that no plain
    object inherits: the name the resolver returns resolves to itself,
    at the first test of the loop condition. *)
Theorem getNowProxyNodeName_idempotent index fuel name r fuel' :
  keyed_by_name index →
  plain_pointers index →
  name ∉ Object_prototype_names →
  getNowProxyNodeName fuel index name = Some r →
  (1 ≤ fuel')%nat →
  getNowProxyNodeName fuel' index r = Some r.
Proof.
  intros Hkeyed Hplain Hplain_name Hr Hfuel.
  unfold getNowProxyNodeName in Hr.
  destruct (index !! name) as [node|] eqn:Hnode; cycle 1.
  { rewrite (read_plain index name Hnode Hplain_name) in Hr. simplify_eq.
    unfold getNowProxyNodeName.
    by rewrite (read_plain index r Hnode Hplain_name). }
  rewrite (proj2 (read_Own index name node) Hnode) in Hr.
  destruct (truthy_string name) eqn:Hname; cycle 1.
  { simplify_eq. unfold getNowProxyNodeName.
    by rewrite (proj2 (read_Own index r node) Hnode), Hname. }
  destruct (getNowProxyNodeName_loop_result index fuel Hkeyed Hplain
              name node r Hnode Hr) as (last & Hlast & Hend).
  unfold getNowProxyNodeName.
  rewrite (proj2 (read_Own index r last) Hlast).
  destruct (truthy_string r); [|done].
  destruct fuel' as [|fuel']; [lia|]. simpl.
  destruct Hend as [Hend|(now & Hend & Hnow)]; rewrite Hend.
  - by rewrite (Hkeyed r last Hlast).
  - rewrite (read_plain index now Hnow (Hplain r last now Hlast Hend)).
    by rewrite (Hkeyed r last Hlast).
Qed.

(** X9. A group resolves to what its selected member resolves to, one
    test of the loop condition later; so the latency shown for the group
    is the latency shown for the member. *)
Theorem getLatencyByName_follows_selection fuel st group node now :
  proxyNodeMap st !! group = Some node →
  group ≠ "" →
  next_pointer node = Some now →
  is_Some (proxyNodeMap st !! now) →
  getNowProxyNodeName (S fuel) (proxyNodeMap st) group
  = getNowProxyNodeName fuel (proxyNodeMap st) now
  ∧ latencyByName (S fuel) group st = latencyByName fuel now st.
Proof.
  intros Hgroup Hne Hnp [nextNode Hnext].
  assert (getNowProxyNodeName (S fuel) (proxyNodeMap st) group
          = getNowProxyNodeName fuel (proxyNodeMap st) now) as Heq.
  { unfold getNowProxyNodeName.
    rewrite (proj2 (read_Own _ group node) Hgroup).
    rewrite (proj2 (truthy_string_true group)) by done.
    simpl. rewrite Hnp, (proj2 (read_Own _ now nextNode) Hnext).
    apply next_pointer_Some in Hnp as (_ & Hnow & _).
    by rewrite (proj2 (truthy_string_true now)). }
  split; [done|].
  unfold getLatencyByName, resolve, mbind, M_bind, bind. by rewrite Heq.
Qed.

(** X10. In a consistent store where no pointer is a name that every
    plain object inherits, the latency looked up for an indexed name is
    an entry of the latency map whenever the resolver returns. *)
Theorem getLatencyByName_defined fuel st name r :
  consistent st →
  plain_pointers (proxyNodeMap st) →
  is_Some (proxyNodeMap st !! name) →
  getNowProxyNodeName fuel (proxyNodeMap st) name = Some r →
  ∃ delay,
    latencyMap st !! r = Some delay
    ∧ latencyByName fuel name st = (Returned (Own delay), st).
Proof.
  intros [Hkeyed Hdom] Hplain [node Hnode] Hr.
  assert (is_Some (proxyNodeMap st !! r)) as Hindexed.
  { unfold getNowProxyNodeName in Hr.
    rewrite (proj2 (read_Own _ name node) Hnode) in Hr.
    destruct (truthy_string name); [|simplify_eq; eauto].
    destruct (getNowProxyNodeName_loop_result _ fuel Hkeyed Hplain
                name node r Hnode Hr) as (last & Hlast & _).
    eauto. }
  apply elem_of_dom, Hdom, elem_of_dom in Hindexed as [delay Hdelay].
  exists delay. split; [done|].
  unfold getLatencyByName, resolve, mbind, M_bind, bind, mret, M_ret, ret.
  rewrite Hr. simpl. by rewrite (proj2 (read_Own _ r delay) Hdelay).
Qed.

(** ** Node latency test and latency lookup together *)

Lemma proxyLatencyTest_written remote fuel proxyName provider st terminal :
  getNowProxyNodeName fuel (proxyNodeMap st) proxyName = Some terminal →
  proxyNodeMap (latencyTest remote fuel proxyName provider st).2
  = proxyNodeMap st
  ∧ latencyMap (latencyTest remote fuel proxyName provider st).2
    = <[terminal :=
          measured_or NOT_CONNECTED
            (proxyLatencyTestAPI remote terminal provider
               urlForLatencyTest latencyTestTimeoutDuration)]>
        (latencyMap st).
Proof.
  intros Hres.
  unfold proxyLatencyTest, setWithCallback, when_settled, try_catch, resolve,
    mbind, M_bind, bind.
  rewrite Hres. simpl.
  destruct (proxyLatencyTestAPI remote terminal provider
              urlForLatencyTest latencyTestTimeoutDuration) as [e|delay];
    simpl; done.
Qed.

Lemma getLatencyByName_run fuel name st r :
  getNowProxyNodeName fuel (proxyNodeMap st) name = Some r →
  latencyByName fuel name st = (Returned (read (latencyMap st) r), st).
Proof.
  intros Hr.
  unfold getLatencyByName, resolve, mbind, M_bind, bind, mret, M_ret, ret.
  by rewrite Hr.
Qed.

(** X11. Once a node latency test has settled, that is, once the
    engine has answered and the callback has written the answer, the
    latency looked up for the tested name, and for every name that
    resolves to the same terminal node, is the delay the engine
    answered, or [NOT_CONNECTED] when it rejected the test.  The store
    is the one of that moment; the promise the caller holds is fulfilled
    earlier, before the answer is written. *)
Theorem getLatencyByName_of_settled_test
    remote fuel proxyName provider st terminal alias :
  getNowProxyNodeName fuel (proxyNodeMap st) proxyName = Some terminal →
  getNowProxyNodeName fuel (proxyNodeMap st) alias = Some terminal →
  (latencyByName fuel alias
     (latencyTest remote fuel proxyName provider st).2).1
  = Returned
      (Own (measured_or NOT_CONNECTED
              (proxyLatencyTestAPI remote terminal provider
                 urlForLatencyTest latencyTestTimeoutDuration))).
Proof.
  intros Hres Halias.
  destruct (proxyLatencyTest_written remote fuel proxyName provider st
              terminal Hres) as [Hindex Hlat].
  rewrite (getLatencyByName_run fuel alias _ terminal)
    by (by rewrite Hindex).
  simpl. rewrite Hlat. apply f_equal, read_Own, lookup_insert_eq.
Qed.

(** X12. A node latency test leaves the latency looked up for every name
    that resolves to another terminal node as it was. *)
Theorem proxyLatencyTest_other_latencies
    remote fuel proxyName provider st terminal other terminal' :
  getNowProxyNodeName fuel (proxyNodeMap st) proxyName = Some terminal →
  getNowProxyNodeName fuel (proxyNodeMap st) other = Some terminal' →
  terminal' ≠ terminal →
  (latencyByName fuel other
     (latencyTest remote fuel proxyName provider st).2).1
  = (latencyByName fuel other st).1.
Proof.
  intros Hres Hother Hne.
  destruct (proxyLatencyTest_written remote fuel proxyName provider st
              terminal Hres) as [Hindex Hlat].
  rewrite (getLatencyByName_run fuel other _ terminal')
    by (by rewrite Hindex).
  rewrite (getLatencyByName_run fuel other st terminal') by done.
  simpl. unfold read. by rewrite Hlat, lookup_insert_ne.
Qed.

(** ** Group classification and the resolver *)

Lemma truthy_pointer_false_next node :
  truthy_pointer (ProxyInfo.latency node) = false →
  next_pointer node = None.
Proof.
  unfold truthy_pointer, next_pointer.
  destruct (ProxyInfo.latency node) as [now|]; [|done].
  by intros ->.
Qed.

(** X13. An indexed node that [isProxyGroup] does not class as a group
    resolves to itself, at the first test of the loop condition. *)
Theorem isProxyGroup_false_resolves_to_itself index name node fuel :
  keyed_by_name index →
  index !! name = Some node →
  isProxyGroup index name = inr false →
  (1 ≤ fuel)%nat →
  getNowProxyNodeName fuel index name = Some name.
Proof.
  intros Hkeyed Hnode Hgroup Hfuel.
  unfold isProxyGroup in Hgroup.
  rewrite (proj2 (read_Own index name node) Hnode) in Hgroup.
  apply (inj inr), orb_false_iff in Hgroup as [_ Hpointer].
  apply truthy_pointer_false_next in Hpointer.
  unfold getNowProxyNodeName.
  rewrite (proj2 (read_Own index name node) Hnode).
  destruct (truthy_string name); [|done].
  destruct fuel as [|fuel]; [lia|]. simpl.
  by rewrite Hpointer, (Hkeyed name node Hnode).
Qed.

(** Whatever the letter case of its type, a node of type direct, reject
    or loadbalance is classed as a group, with or without a pointer; so
    is every node with a non-empty pointer; a name that is read as
    nothing is not; a name that is read as an inherited function makes
    the call throw, at [proxyNode.type.toLowerCase()]. *)
Lemma isProxyGroup_classes index name :
  (read index name = Missing → isProxyGroup index name = inr false)
  ∧ (∀ f, read index name = Inherited f →
          ∃ e, isProxyGroup index name = inl (TypeError e))
  ∧ (∀ node,
       index !! name = Some node →
       toLowerCase (ProxyInfo.type node)
         ∈ ["direct"; "reject"; "loadbalance"] →
       isProxyGroup index name = inr true)
  ∧ (∀ node now,
       index !! name = Some node →
       ProxyInfo.latency node = Some now → now ≠ "" →
       isProxyGroup index name = inr true)
  ∧ (∀ node,
       index !! name = Some node →
       isProxyGroup index name = inr true →
       toLowerCase (ProxyInfo.type node)
         ∈ ["direct"; "reject"; "loadbalance"]
       ∨ ∃ now, ProxyInfo.latency node = Some now ∧ now ≠ "").
Proof.
  unfold isProxyGroup. split; [by intros ->|].
  split; [intros f ->; eauto|]. split; [|split].
  - intros node ->%read_Own Htype. by rewrite bool_decide_eq_true_2.
  - intros node now ->%read_Own -> Hnow. simpl.
    rewrite (proj2 (truthy_string_true now)) by done.
    by rewrite orb_true_r.
  - intros node ->%read_Own. intros Hgroup. apply (inj inr) in Hgroup.
    revert Hgroup. rewrite orb_true_iff, bool_decide_eq_true.
    intros [Htype|Hpointer]; [by left|right].
    destruct (ProxyInfo.latency node) as [now|]; [|done].
    exists now. split; [done|]. by apply truthy_string_true.
Qed.

End More.

(** ** The coordinator *)

Section MoreCoordinator.
Variable NOT_CONNECTED : Z.
Variable urlForLatencyTest : string.
Variable latencyTestTimeoutDuration : Z.
Variable autoCloseConns : bool.
Variable activeConns : list Connection.t.

Local Abbreviation refresh := (fetchProxies NOT_CONNECTED urlForLatencyTest).
Local Abbreviation refreshing := (refreshC NOT_CONNECTED urlForLatencyTest).
Local Abbreviation select :=
  (selectProxyInGroup NOT_CONNECTED urlForLatencyTest autoCloseConns
     activeConns).
Local Abbreviation fetches := ([Core FetchProxyProviders; Core FetchProxies]).

Lemma moved_moved w st r1 st' r2 :
  moved (moved w st r1) st' r2 = moved w st' (r1 ++ r2).
Proof. unfold moved. simpl. by rewrite app_assoc. Qed.

Lemma moved_nothing w : moved w (store w) [] = w.
Proof. destruct w. unfold moved. simpl. by rewrite app_nil_r. Qed.

Lemma send_run r w : send r w = (Returned (), moved w (store w) [r]).
Proof. reflexivity. Qed.

(** A refresh inside the coordinator: its outcome and store are those of
    [fetchProxies], and the two fetch requests are sent. *)
Lemma refreshC_run engine w :
  refreshing engine w
  = ((refresh (core engine) (store w)).1,
     moved w (refresh (core engine) (store w)).2 fetches).
Proof.
  unfold refreshC, liftM.
  pose proof (fetchProxies_issued NOT_CONNECTED urlForLatencyTest
                (core engine) (store w)) as Hissued.
  destruct (refresh (core engine) (store w)) as [r st'] eqn:Hrun.
  simpl in *. unfold moved. by rewrite Hissued, drop_app_length.
Qed.

(** A refresh returns or throws; it never runs out of fuel. *)
Lemma fetchProxies_settles remote st :
  (refresh remote st).1 = Returned ()
  ∨ ∃ e, (refresh remote st).1 = Thrown e.
Proof.
  destruct (fetchProxies_outcomes NOT_CONNECTED urlForLatencyTest remote st)
    as [(providers & fetched & GLOBAL & _ & _ & _ & ->)|[e ->]]; eauto.
Qed.

Lemma forEach_closes group conns w :
  forEach conns
    (λ conn,
       if bool_decide (group ∈ Connection.chains conn)
       then send (CloseSingleConnection (Connection.id conn))
       else retC ()) w
  = (Returned (), moved w (store w) (closes_for group conns)).
Proof.
  revert w. induction conns as [|conn conns IH]; intros w.
  - simpl. unfold retC. by rewrite moved_nothing.
  - unfold closes_for. rewrite filter_cons. simpl. unfold bindC.
    destruct (decide (group ∈ Connection.chains conn)) as [Hin|Hout].
    + rewrite bool_decide_eq_true_2 by done. rewrite send_run, IH.
      by rewrite moved_moved.
    + rewrite bool_decide_eq_false_2 by done. unfold retC. by rewrite IH.
Qed.

Lemma forEach_updates (providers : list ProxyProvider.t) w :
  forEach providers
    (λ provider, send (UpdateProxyProvider (ProxyProvider.name provider))) w
  = (Returned (),
     moved w (store w)
       ((λ provider, UpdateProxyProvider (ProxyProvider.name provider))
          <$> providers)).
Proof.
  revert w. induction providers as [|provider providers IH]; intros w.
  - simpl. unfold retC. by rewrite moved_nothing.
  - simpl. unfold bindC. rewrite send_run, IH. by rewrite moved_moved.
Qed.

(** X14. When the engine rejects the selection, [selectProxyInGroup]
    throws that rejection: the selection request is the only one sent,
    nothing is fetched, no connection is closed and the store is as it
    was. *)
Theorem selectProxyInGroup_rejected engine proxy proxyName w e :
  selectProxyInGroupAPI engine (Proxy.name proxy) proxyName = inl e →
  select engine proxy proxyName w
  = (Thrown e,
     moved w (store w) [SelectProxyInGroup (Proxy.name proxy) proxyName]).
Proof.
  intros Hrej. unfold selectProxyInGroup, mbind, C_bind, bindC.
  rewrite send_run, Hrej. reflexivity.
Qed.

(** X15. When the selection is accepted and the refresh returns,
    [selectProxyInGroup] returns, having sent the selection, the two
    fetches and then, if connections are to be closed automatically, one
    close request for each active connection whose chain goes through
    the group, in the order of the connection list, and for no other. *)
Theorem selectProxyInGroup_closes engine proxy proxyName w st' :
  selectProxyInGroupAPI engine (Proxy.name proxy) proxyName = inr () →
  refresh (core engine) (store w) = (Returned (), st') →
  select engine proxy proxyName w
  = (Returned (),
     moved w st'
       (SelectProxyInGroup (Proxy.name proxy) proxyName :: fetches
        ++ if autoCloseConns
           then closes_for (Proxy.name proxy) activeConns
           else [])).
Proof.
  intros Hok Hrun. unfold selectProxyInGroup, mbind, C_bind, bindC.
  rewrite send_run, Hok. simpl. rewrite refreshC_run. simpl.
  rewrite Hrun. simpl. rewrite moved_moved.
  destruct autoCloseConns.
  - rewrite forEach_closes. by rewrite moved_moved.
  - reflexivity.
Qed.

(** X16. When the selection is accepted and the refresh throws,
    [selectProxyInGroup] throws the same error and closes no
    connection. *)
Theorem selectProxyInGroup_refresh_fails engine proxy proxyName w e st' :
  selectProxyInGroupAPI engine (Proxy.name proxy) proxyName = inr () →
  refresh (core engine) (store w) = (Thrown e, st') →
  select engine proxy proxyName w
  = (Thrown e,
     moved w st'
       (SelectProxyInGroup (Proxy.name proxy) proxyName :: fetches)).
Proof.
  intros Hok Hrun. unfold selectProxyInGroup, mbind, C_bind, bindC.
  rewrite send_run, Hok. simpl. rewrite refreshC_run. simpl.
  rewrite Hrun. simpl. by rewrite moved_moved.
Qed.

(** X17. [updateAllProvider] sends one update request for each published
    provider, in order, then refreshes whatever the engine answers to
    the updates; it ends as the refresh ends, and the flag
    [isAllProviderUpdating] is false afterwards even when the refresh
    throws. *)
Theorem updateAllProvider_run engine w :
  let run := updateAllProvider NOT_CONNECTED urlForLatencyTest engine w in
  run.1 = (refresh (core engine) (store w)).1
  ∧ store run.2 = (refresh (core engine) (store w)).2
  ∧ isAllProviderUpdating run.2 = false
  ∧ sent run.2
    = sent w
      ++ ((λ provider, UpdateProxyProvider (ProxyProvider.name provider))
            <$> proxyProviders (store w))
      ++ fetches.
Proof.
  unfold updateAllProvider, try_finally, mbind, C_bind, bindC. simpl.
  rewrite forEach_updates. simpl. rewrite refreshC_run. simpl.
  destruct (fetchProxies_settles (core engine) (store w))
    as [Hret|[e Hthrown]].
  - rewrite Hret. simpl. repeat split. by rewrite <- app_assoc.
  - rewrite Hthrown. simpl. repeat split. by rewrite <- app_assoc.
Qed.

(** X18. [updateProviderByProviderName] refreshes whether the engine
    accepts or rejects the update: the store afterwards is the one the
    refresh leaves, the update request is followed by the two fetches,
    and the provider is no longer marked as updating. *)
Theorem updateProviderByProviderName_refreshes engine providerName w :
  let run :=
    updateProviderByProviderName NOT_CONNECTED urlForLatencyTest
      engine providerName w in
  store run.2 = (refresh (core engine) (store w)).2
  ∧ sent run.2 = sent w ++ UpdateProxyProvider providerName :: fetches
  ∧ updatingMap run.2 !! providerName = Some false.
Proof.
  unfold updateProviderByProviderName, guarded, try_finally, try_ignore,
    mbind, C_bind, bindC. simpl.
  destruct (updateProxyProviderAPI engine providerName) as [e|[]]; simpl;
    rewrite refreshC_run; simpl;
    destruct (fetchProxies_settles (core engine) (store w))
      as [Hret|[e' Hthrown]];
    rewrite ?Hret, ?Hthrown; simpl;
    rewrite <- app_assoc, lookup_insert_eq; done.
Qed.

(** X19. [proxyGroupLatencyTest] and [proxyProviderLatencyTest] refresh
    only when the engine accepts the test: on a rejection the store is
    as it was and the test request is the only one sent; otherwise the
    store is the one the refresh leaves and the two fetches follow the
    test request. *)
Theorem latency_tests_refresh_when_accepted engine name w :
  let group :=
    proxyGroupLatencyTest NOT_CONNECTED urlForLatencyTest
      latencyTestTimeoutDuration engine name w in
  let provider :=
    proxyProviderLatencyTest NOT_CONNECTED urlForLatencyTest
      engine name w in
  let groupTest :=
    ProxyGroupLatencyTest name urlForLatencyTest latencyTestTimeoutDuration in
  (∀ e, proxyGroupLatencyTestAPI engine name urlForLatencyTest
          latencyTestTimeoutDuration = inl e →
        store group.2 = store w ∧ sent group.2 = sent w ++ [groupTest])
  ∧ (proxyGroupLatencyTestAPI engine name urlForLatencyTest
       latencyTestTimeoutDuration = inr () →
     store group.2 = (refresh (core engine) (store w)).2
     ∧ sent group.2 = sent w ++ groupTest :: fetches)
  ∧ (∀ e, proxyProviderHealthCheckAPI engine name = inl e →
        store provider.2 = store w
        ∧ sent provider.2 = sent w ++ [ProxyProviderHealthCheck name])
  ∧ (proxyProviderHealthCheckAPI engine name = inr () →
     store provider.2 = (refresh (core engine) (store w)).2
     ∧ sent provider.2
       = sent w ++ ProxyProviderHealthCheck name :: fetches).
Proof.
  unfold proxyGroupLatencyTest, proxyProviderLatencyTest, not_awaited,
    guarded, try_finally, mbind, C_bind, bindC. simpl.
  split; [|split; [|split]].
  - intros e ->. done.
  - intros ->. simpl. rewrite refreshC_run. simpl.
    destruct (fetchProxies_settles (core engine) (store w))
      as [Hret|[e' Hthrown]];
      rewrite ?Hret, ?Hthrown; simpl; by rewrite <- app_assoc.
  - intros e ->. done.
  - intros ->. simpl. rewrite refreshC_run. simpl.
    destruct (fetchProxies_settles (core engine) (store w))
      as [Hret|[e' Hthrown]];
      rewrite ?Hret, ?Hthrown; simpl; by rewrite <- app_assoc.
Qed.

End MoreCoordinator.

(** ** Projection and latency derivation, continued *)

Section MoreProjection.
Variable NOT_CONNECTED : Z.
Variable urlForLatencyTest : string.

Local Abbreviation getLatency := (getLatencyFromProxy NOT_CONNECTED).
Local Abbreviation project := (setProxiesInfo NOT_CONNECTED urlForLatencyTest).


(** X21. The derived latency is [NOT_CONNECTED] or the delay of a last
    sample, of [extra[url]] or of [history]; without fallback it is
    [NOT_CONNECTED] or a non-zero last delay of [extra[url]], and
    [history] is not read. *)
Theorem getLatencyFromProxy_is_last_sample proxy url fallbackDefault :
  let result := getLatency proxy url fallbackDefault in
  (result = NOT_CONNECTED
   ∨ (extra_last_delay proxy url result ∧ result ≠ 0)
   ∨ (fallbackDefault = true ∧ history_last_delay proxy result))
  ∧ (∀ h, getLatency
            (Proxy.mk (Proxy.name proxy) (Proxy.type proxy) (Proxy.udp proxy)
               (Proxy.xudp proxy) (Proxy.tfo proxy) (Proxy.now proxy) h
               (Proxy.extra proxy) (Proxy.all proxy) (Proxy.provider proxy))
            url false
          = getLatency proxy url false).
Proof.
  split; [|done]. simpl. unfold getLatencyFromProxy, at_last.
  assert (∀ fb,
            (if negb fb then NOT_CONNECTED
             else default NOT_CONNECTED
                    (Sample.delay <$> (Proxy.history proxy ≫= last)))
            = NOT_CONNECTED
            ∨ fb = true
              ∧ history_last_delay proxy
                  (if negb fb then NOT_CONNECTED
                   else default NOT_CONNECTED
                          (Sample.delay <$> (Proxy.history proxy ≫= last))))
    as Hafter.
  { intros [|]; simpl; [|by left].
    destruct (Proxy.history proxy) as [h|] eqn:Hh; simpl; [|by left].
    destruct (last h) as [s|] eqn:Hs; simpl; [|by left].
    right. split; [done|]. by exists h, s. }
  destruct (Proxy.extra proxy) as [e|] eqn:He; simpl;
    [|destruct (Hafter fallbackDefault); eauto].
  destruct (e !! url) as [[samples|]|] eqn:Hurl;
    [|destruct (Hafter fallbackDefault); eauto..].
  destruct (last samples) as [s|] eqn:Hlast; simpl;
    [|destruct (Hafter fallbackDefault); eauto].
  unfold truthy_number. destruct (Z.eqb_spec (Sample.delay s) 0) as [Hz|Hnz];
    simpl; [destruct (Hafter fallbackDefault); eauto|].
  right. left. split; [|done]. by exists e, samples, s.
Qed.

End MoreProjection.

(** * The further properties at work on the small engine *)

Lemma emptyStore_consistent : consistent emptyStore.
Proof.
  split; simpl; [|done]. intros k node Hk. by rewrite lookup_empty in Hk.
Qed.

Lemma Ex_store1_consistent : consistent Ex.store1.
Proof.
  apply (fetchProxies_keeps_consistent Ex.NOT_CONNECTED Ex.url Ex.remote),
    emptyStore_consistent.
Qed.

Lemma fetchProxies_without_GLOBAL_witness :
  ∃ msg st',
    fetchProxies Ex.NOT_CONNECTED Ex.url Ex2.remote_no_GLOBAL Ex.store1
    = (Thrown (TypeError msg), st')
    ∧ published st' = published Ex.store1
    ∧ issued st' = issued Ex.store1 ++ [FetchProxyProviders; FetchProxies].
Proof.
  apply (fetchProxies_without_GLOBAL Ex.NOT_CONNECTED Ex.url
           Ex2.remote_no_GLOBAL Ex.store1 Ex.providers
           [("A", Ex.A); ("y", Ex.leaf "y" 5)] eq_refl eq_refl).
  apply (bool_decide_unpack _). vm_compute. exact I.
Defined.


Lemma reachable_consistent_witness : consistent Ex.store1.
Proof.
  apply (reachable_consistent Ex.NOT_CONNECTED Ex.url Ex.timeout).
  apply (reachable_refresh _ _ _ Ex.remote emptyStore), reachable_empty.
Defined.

Lemma fetchProxies_twice_witness :
  ∃ st'', fetchProxies Ex.NOT_CONNECTED Ex.url Ex.remote Ex.store1
          = (Returned (), st'')
          ∧ published st'' = published Ex.store1.
Proof.
  apply (fetchProxies_twice Ex.NOT_CONNECTED Ex.url Ex.remote emptyStore
           Ex.store1 eq_refl).
Defined.

Lemma fetchProxies_GLOBAL_last_witness :
  last (proxies Ex.store1) = Some Ex.GLOBAL.
Proof.
  apply (fetchProxies_GLOBAL_last Ex.NOT_CONNECTED Ex.url Ex.remote
           emptyStore Ex.store1 Ex.fetched Ex.GLOBAL
           eq_refl eq_refl eq_refl Ex_fetched_named).
  - apply (bool_decide_unpack _). vm_compute. exact I.
  - reflexivity.
  - apply (bool_decide_unpack _). vm_compute. exact I.
Defined.

Lemma fetchProxies_hidden_provider_nodes_witness :
  proxyNodeMap (fetchProxies Ex.NOT_CONNECTED Ex.url Ex2.remote_hidden
                  emptyStore).2 !! "h" = None
  ∧ latencyMap (fetchProxies Ex.NOT_CONNECTED Ex.url Ex2.remote_hidden
                  emptyStore).2 !! "h" = None.
Proof.
  apply (fetchProxies_hidden_provider_nodes Ex.NOT_CONNECTED Ex.url
           Ex2.remote_hidden emptyStore _ _ Ex.fetched "h"
           eq_refl eq_refl eq_refl).
  - intros p Hp Heq. apply (list_elem_of_fmap_2 Proxy.name) in Hp.
    rewrite Heq in Hp. vm_compute in Hp.
    repeat (apply elem_of_cons in Hp as [Hp|Hp]; [discriminate|]).
    by apply elem_of_nil in Hp.
  - intros P n HP Hn Heq. simpl in HP.
    apply elem_of_cons in HP as [->|HP]; [by left|].
    apply list_elem_of_singleton in HP as ->. exfalso.
    apply (list_elem_of_fmap_2 Proxy.name) in Hn.
    rewrite Heq in Hn. vm_compute in Hn.
    repeat (apply elem_of_cons in Hn as [Hn|Hn]; [discriminate|]).
    by apply elem_of_nil in Hn.
Defined.

Lemma Ex_store1_plain : plain_pointers (proxyNodeMap Ex.store1).
Proof.
  intros k node now Hk Hnp.
  assert (map_Forall
            (λ _ node,
               default true
                 ((λ now, bool_decide (now ∉ Object_prototype_names))
                    <$> next_pointer node) = true)
            (proxyNodeMap Ex.store1)) as Hall.
  { apply (bool_decide_unpack _). vm_compute. exact I. }
  specialize (Hall k node Hk). simpl in Hall. rewrite Hnp in Hall.
  by apply bool_decide_eq_true in Hall.
Qed.


Lemma getNowProxyNodeName_idempotent_witness :
  getNowProxyNodeName 1 (proxyNodeMap Ex.store1) "X" = Some "X".
Proof.
  apply (getNowProxyNodeName_idempotent (proxyNodeMap Ex.store1) 3
           "GLOBAL" "X" 1);
    [apply Ex_store1_consistent|apply Ex_store1_plain| |reflexivity|lia].
  apply (bool_decide_unpack _). vm_compute. exact I.
Defined.

Lemma getLatencyByName_follows_selection_witness :
  getNowProxyNodeName 3 (proxyNodeMap Ex.store1) "GLOBAL"
  = getNowProxyNodeName 2 (proxyNodeMap Ex.store1) "A"
  ∧ getLatencyByName 3 "GLOBAL" Ex.store1 = getLatencyByName 2 "A" Ex.store1.
Proof.
  apply (getLatencyByName_follows_selection 2 Ex.store1 "GLOBAL"
           (toProxyInfo Ex.GLOBAL) "A");
    [reflexivity|done|reflexivity|by eexists].
Defined.

Lemma getLatencyByName_defined_witness :
  ∃ delay,
    latencyMap Ex.store1 !! "X" = Some delay
    ∧ getLatencyByName 3 "GLOBAL" Ex.store1
      = (Returned (Own delay), Ex.store1).
Proof.
  apply (getLatencyByName_defined 3 Ex.store1 "GLOBAL" "X");
    [apply Ex_store1_consistent|apply Ex_store1_plain|by eexists
    |reflexivity].
Defined.

Lemma getLatencyByName_of_settled_test_witness :
  (getLatencyByName 3 "A"
     (proxyLatencyTest Ex.NOT_CONNECTED Ex.url Ex.timeout Ex.remote 3
        "GLOBAL" "" Ex.store1).2).1
  = Returned (Own 42).
Proof.
  apply (getLatencyByName_of_settled_test Ex.NOT_CONNECTED Ex.url
           Ex.timeout Ex.remote 3 "GLOBAL" "" Ex.store1 "X" "A");
    reflexivity.
Defined.

Lemma proxyLatencyTest_other_latencies_witness :
  (getLatencyByName 3 "B"
     (proxyLatencyTest Ex.NOT_CONNECTED Ex.url Ex.timeout Ex.remote 3
        "GLOBAL" "" Ex.store1).2).1
  = (getLatencyByName 3 "B" Ex.store1).1.
Proof.
  apply (proxyLatencyTest_other_latencies Ex.NOT_CONNECTED Ex.url
           Ex.timeout Ex.remote 3 "GLOBAL" "" Ex.store1 "X" "B" "y");
    [reflexivity|reflexivity|done].
Defined.

Lemma isProxyGroup_false_resolves_to_itself_witness :
  getNowProxyNodeName 1 (proxyNodeMap Ex.store1) "y" = Some "y".
Proof.
  apply (isProxyGroup_false_resolves_to_itself (proxyNodeMap Ex.store1) "y"
           (toProxyInfo (Ex.leaf "y" 5)) 1);
    [apply Ex_store1_consistent|reflexivity|reflexivity|lia].
Defined.

Lemma selectProxyInGroup_rejected_witness :
  selectProxyInGroup Ex.NOT_CONNECTED Ex.url true Ex2.conns
    Ex2.engine_rejecting Ex.A "X" Ex2.coordinator1
  = (Thrown (RemoteError "400"),
     moved Ex2.coordinator1 Ex.store1 [SelectProxyInGroup "A" "X"]).
Proof.
  apply (selectProxyInGroup_rejected Ex.NOT_CONNECTED Ex.url true Ex2.conns
           Ex2.engine_rejecting Ex.A "X" Ex2.coordinator1).
  reflexivity.
Defined.

Lemma selectProxyInGroup_closes_witness :
  selectProxyInGroup Ex.NOT_CONNECTED Ex.url true Ex2.conns
    Ex2.engine Ex.A "X" Ex2.coordinator1
  = (Returned (),
     moved Ex2.coordinator1
       (fetchProxies Ex.NOT_CONNECTED Ex.url Ex.remote Ex.store1).2
       [SelectProxyInGroup "A" "X"; Core FetchProxyProviders;
        Core FetchProxies; CloseSingleConnection "c1";
        CloseSingleConnection "c3"]).
Proof.
  apply (selectProxyInGroup_closes Ex.NOT_CONNECTED Ex.url true Ex2.conns
           Ex2.engine Ex.A "X" Ex2.coordinator1
           (fetchProxies Ex.NOT_CONNECTED Ex.url Ex.remote Ex.store1).2);
    reflexivity.
Defined.

Lemma selectProxyInGroup_refresh_fails_witness :
  selectProxyInGroup Ex.NOT_CONNECTED Ex.url true Ex2.conns
    Ex2.engine_down Ex.A "X" Ex2.coordinator1
  = (Thrown (RemoteError "502"),
     moved Ex2.coordinator1 (after_failed_refresh Ex.store1)
       [SelectProxyInGroup "A" "X"; Core FetchProxyProviders;
        Core FetchProxies]).
Proof.
  apply (selectProxyInGroup_refresh_fails Ex.NOT_CONNECTED Ex.url true
           Ex2.conns Ex2.engine_down Ex.A "X" Ex2.coordinator1);
    reflexivity.
Defined.

Lemma latency_tests_refresh_when_accepted_witness :
  store (proxyGroupLatencyTest Ex.NOT_CONNECTED Ex.url Ex.timeout
           Ex2.engine_rejecting "A" Ex2.coordinator1).2 = Ex.store1
  ∧ sent (proxyProviderLatencyTest Ex.NOT_CONNECTED Ex.url
            Ex2.engine "p1" Ex2.coordinator1).2
    = [ProxyProviderHealthCheck "p1"; Core FetchProxyProviders;
       Core FetchProxies].
Proof.
  destruct (latency_tests_refresh_when_accepted Ex.NOT_CONNECTED Ex.url
              Ex.timeout Ex2.engine_rejecting "A" Ex2.coordinator1)
    as (Hrejected & _).
  destruct (latency_tests_refresh_when_accepted Ex.NOT_CONNECTED Ex.url
              Ex.timeout Ex2.engine "p1" Ex2.coordinator1)
    as (_ & _ & _ & Haccepted).
  split.
  - apply (Hrejected (RemoteError "504")). reflexivity.
  - apply Haccepted. reflexivity.
Defined.

